(** * KnowTeX: the text-to-graph extraction pipeline of [KnowTeX.py]

    A shallow embedding of the source resolver ([load_and_expand]), the
    structural walker ([parse_latex_structure]) and the graph assembler
    ([build_graph]), with the properties the specification states about
    them.

    Conventions of the embedding.
    - A Python [str] is a [string]; a character is a code point below 256.
    - A [dict] is a [gmap], a [set] a [gset]; the [defaultdict(list)]
      [uses_on_node], whose iteration order the assembler relies on, is an
      association list in insertion order.
    - [re] patterns are matchers on the text at one position; [scan] is the
      left-to-right search for non-overlapping matches that [finditer],
      [search] and [sub] share.
    - The node tree that pylatexenc's [LatexWalker.get_latex_nodes] returns
      is the input of the walker; the library itself is not part of the
      program.
    - [os.path] is the POSIX flavour ([posixpath]).
    - The file system is what [read_file] does at each absolute path: it
      returns the text of a file or it raises.  A part of the resolver
      returns, or an exception leaves it, or it runs out of the fuel that
      bounds the depth of its recursion. *)

From stdpp Require Import gmap strings list fin_maps pretty sorting.
From Stdlib Require Import Ascii.

Local Open Scope stdpp_scope.

(* ===================================================================== *)
(** ** Characters and strings *)
(* ===================================================================== *)

(** [str.isspace] / the class [\s] on code points below 256. *)
Definition is_space (c : ascii) : bool :=
  let n := nat_of_ascii c in
  ((9 <=? n) && (n <=? 13)) || ((28 <=? n) && (n <=? 32))
  || (n =? 133) || (n =? 160).

(** Lower-casing as [re.I] sees it against a pattern of ASCII letters. *)
Definition to_lower (c : ascii) : ascii :=
  let n := nat_of_ascii c in
  if (65 <=? n) && (n <=? 90) then ascii_of_nat (n + 32) else c.

Fixpoint string_lower (s : string) : string :=
  match s with
  | "" => ""
  | String c s' => String (to_lower c) (string_lower s')
  end.

(** [s.startswith(p)], returning what follows the prefix. *)
Fixpoint strip_prefix (p s : string) : option string :=
  match p with
  | "" => Some s
  | String a p' =>
      match s with
      | String b s' => if decide (a = b) then strip_prefix p' s' else None
      | "" => None
      end
  end.

(** [s.lstrip()], [s.rstrip()], [s.strip()]. *)
Fixpoint lstrip (s : string) : string :=
  match s with
  | String c s' => if is_space c then lstrip s' else s
  | "" => ""
  end.

Fixpoint rstrip (s : string) : string :=
  match s with
  | "" => ""
  | String c s' =>
      match rstrip s' with
      | "" => if is_space c then "" else String c ""
      | r => String c r
      end
  end.

Definition strip (s : string) : string := rstrip (lstrip s).

(** [s.split(sep)] for a one-character separator: never the empty list. *)
Fixpoint split_on (sep : ascii) (s : string) : list string :=
  match s with
  | "" => [""]
  | String c s' =>
      if decide (c = sep) then "" :: split_on sep s'
      else match split_on sep s' with
           | x :: xs => String c x :: xs
           | [] => [String c ""]
           end
  end.

(** [[x.strip() for x in g.split(",") if x.strip()]]. *)
Definition csv_labels (g : string) : list string :=
  filter (λ x, x ≠ "") (strip <$> split_on ","%char g).

(** Python truthiness of an optional string: [None] and [""] are false. *)
Definition truthy (o : option string) : option string :=
  match o with
  | Some "" => None
  | _ => o
  end.

(* ===================================================================== *)
(** ** Regular expressions *)
(* ===================================================================== *)

(** A matcher tries the pattern at the head of the text and, on success,
    returns the captured groups and the text after the match.  Every pattern
    of the program consumes at least one character. *)
Definition matcher (G : Type) := string → option (G * string).

Inductive piece (G : Type) :=
| Lit (c : ascii)
| Hit (g : G).
Arguments Lit {G} c.
Arguments Hit {G} g.

(** The scan of [re]: at each position try the pattern; on a match record it
    and resume after it, else keep the character and move one position on.
    [skip] counts the characters still covered by the last match. *)
Fixpoint scan_go {G} (m : matcher G) (skip : nat) (s : string) : list (piece G) :=
  match s with
  | "" => []
  | String c s' =>
      match skip with
      | S k => scan_go m k s'
      | 0 =>
          match m s with
          | Some (g, rest) =>
              Hit g :: scan_go m (String.length s' - String.length rest) s'
          | None => Lit c :: scan_go m 0 s'
          end
      end
  end.

Definition scan {G} (m : matcher G) (s : string) : list (piece G) := scan_go m 0 s.

Fixpoint hits {G} (ps : list (piece G)) : list G :=
  match ps with
  | [] => []
  | Lit _ :: ps' => hits ps'
  | Hit g :: ps' => g :: hits ps'
  end.

(** [rx.finditer(s)] (the groups of each match) and [rx.search(s)]. *)
Definition finditer {G} (m : matcher G) (s : string) : list G := hits (scan m s).
Definition search {G} (m : matcher G) (s : string) : option G := head (finditer m s).

(** [rx.sub(repl, s)] for a pure replacement function. *)
Fixpoint sub_pieces {G} (repl : G → string) (ps : list (piece G)) : string :=
  match ps with
  | [] => ""
  | Lit c :: ps' => String c (sub_pieces repl ps')
  | Hit g :: ps' => repl g +:+ sub_pieces repl ps'
  end.

Definition re_sub {G} (m : matcher G) (repl : G → string) (s : string) : string :=
  sub_pieces repl (scan m s).

(** [[^}]*\}] : the text up to the first closing brace, and what follows it. *)
Fixpoint until_rbrace (s : string) : option (string * string) :=
  match s with
  | "" => None
  | String c s' =>
      if decide (c = "}"%char) then Some ("", s')
      else match until_rbrace s' with
           | Some (g, r) => Some (String c g, r)
           | None => None
           end
  end.

(** [\s*] : drop the leading white space. *)
Definition skip_spaces (s : string) : string := lstrip s.

(** A braced group: one or more ([braced1]), or zero or more ([braced0]),
    characters other than the closing brace, between braces. *)
Definition braced1 (s : string) : option (string * string) :=
  match s with
  | String "{" s' =>
      match until_rbrace s' with
      | Some ("", _) => None
      | r => r
      end
  | _ => None
  end.

Definition braced0 (s : string) : option (string * string) :=
  match s with
  | String "{" s' => until_rbrace s'
  | _ => None
  end.

(** [LABEL_RX]: the literal [\label] and a non-empty braced group. *)
Definition LABEL_RX : matcher string := λ s,
  r ← strip_prefix "\label" s; braced1 r.

(** [USES_RX]: the literal [\uses] and a braced group, possibly empty. *)
Definition USES_RX : matcher string := λ s,
  r ← strip_prefix "\uses" s; braced0 r.

(** [PROVES_RX]: the literal [\proves] and a braced group, possibly empty. *)
Definition PROVES_RX : matcher string := λ s,
  r ← strip_prefix "\proves" s; braced0 r.

(* ===================================================================== *)
(** ** Canonical categories and alias patterns *)
(* ===================================================================== *)

Inductive Canon :=
| definition | theorem | lemma | proposition
| corollary | construction | example | remark.

Global Instance Canon_eq_dec : EqDecision Canon.
Proof. solve_decision. Defined.

Definition CANONICAL_ORDER : list Canon :=
  [definition; theorem; lemma; proposition; corollary; construction; example; remark].

(** [re.compile(r"^(a|b|...)$", re.I).fullmatch(s)] *)
Definition fullmatch_alias (alts : list string) (s : string) : bool :=
  bool_decide (string_lower s ∈ alts).

Definition ALIASES : list (Canon * list string) :=
  [ (definition,   ["definition"; "defn"; "def"]);
    (theorem,      ["theorem"; "thm"; "th"; "thrm"]);
    (lemma,        ["lemma"; "lem"; "ilemma"; "alemma"]);
    (proposition,  ["proposition"; "propn"; "prop"; "prp"]);
    (corollary,    ["corollary"; "cor"; "corol"; "corl"]);
    (construction, ["construction"; "constn"; "const"; "constr"]);
    (example,      ["example"; "examples"; "iexample"]);
    (remark,       ["remark"; "remarks"]) ].

Definition PROOF_ALIAS_RX : list string :=
  ["proof"; "pr"; "pf"; "prf"; "pfof"; "pfoftheorem"].

Fixpoint first_alias (tbl : list (Canon * list string)) (envname : string) : option Canon :=
  match tbl with
  | [] => None
  | (canon, rx) :: tbl' =>
      if fullmatch_alias rx envname then Some canon else first_alias tbl' envname
  end.

Definition canonical_of_env (envname : string) : option Canon :=
  first_alias ALIASES envname.

(* ===================================================================== *)
(** ** The node tree of pylatexenc *)
(* ===================================================================== *)

(** The walker tells an environment node (it has a name, its source text
    [latex_verbatim()] and children) from every other node, of which it
    only reads the children ([nodelist], absent or empty for characters,
    macros and comments). *)
#[warnings="-register-all"]
Inductive LatexNode :=
| LatexEnvironmentNode (environmentname : string) (latex_verbatim : string)
                       (nodelist : list LatexNode)
| LatexOtherNode (nodelist : list LatexNode).

(** Source text with its block structure, to write documents down: a leaf
    is any childless piece of text (characters, a macro with its arguments,
    a comment), a group is [{...}], an environment is [\begin{n}...\end{n}]. *)
#[warnings="-register-all"]
Inductive Tex :=
| TLeaf (s : string)
| TGroup (body : list Tex)
| TEnv (name : string) (body : list Tex).

Fixpoint render (t : Tex) : string :=
  match t with
  | TLeaf s => s
  | TGroup body => "{" +:+ foldr (λ c acc, render c +:+ acc) "" body +:+ "}"
  | TEnv name body =>
      "\begin{" +:+ name +:+ "}"
      +:+ foldr (λ c acc, render c +:+ acc) "" body
      +:+ "\end{" +:+ name +:+ "}"
  end.

Definition render_all (doc : list Tex) : string :=
  foldr (λ c acc, render c +:+ acc) "" doc.

Fixpoint node_of (t : Tex) : LatexNode :=
  match t with
  | TLeaf _ => LatexOtherNode []
  | TGroup body => LatexOtherNode (node_of <$> body)
  | TEnv name body => LatexEnvironmentNode name (render t) (node_of <$> body)
  end.

Definition nodes_of (doc : list Tex) : list LatexNode := node_of <$> doc.

(* ===================================================================== *)
(** ** The structural walker: [parse_latex_structure] *)
(* ===================================================================== *)

Record NodeInfo := mkNodeInfo {
  canon : Canon;
  env : string;
  label : string;
  index : nat
}.

Global Instance NodeInfo_eq_dec : EqDecision NodeInfo.
Proof. solve_decision. Defined.

(** One entry of the list [proofs]. *)
Record ProofInfo := mkProofInfo {
  p_index : nat;
  p_target_label : option string;
  p_uses : list string;
  p_target_node_idx : option nat
}.

(** [uses_on_node[idx].extend(labels)] on a [defaultdict(list)]. *)
Fixpoint dd_extend (idx : nat) (labels : list string)
    (d : list (nat * list string)) : list (nat * list string) :=
  match d with
  | [] => [(idx, labels)]
  | (k, v) :: d' =>
      if decide (k = idx) then (k, v ++ labels) :: d'
      else (k, v) :: dd_extend idx labels d'
  end.

(** The variables the closure [walk] reads and writes. *)
Record WalkState := mkWalkState {
  nodes : list NodeInfo;
  node_by_index : gmap nat NodeInfo;
  label_to_node : gmap string NodeInfo;
  uses_on_node : list (nat * list string);
  proofs : list ProofInfo;
  order_counter : nat;
  last_stmt_idx : option nat
}.

Definition init_state : WalkState :=
  mkWalkState [] ∅ ∅ [] [] 0 None.

(** The [for um in USES_RX.finditer(s)] loop of a statement block. *)
Definition record_uses (my_index : nat) (s : string)
    (d : list (nat * list string)) : list (nat * list string) :=
  foldl (λ d g, match csv_labels g with
                | [] => d
                | labels => dd_extend my_index labels d
                end) d (finditer USES_RX s).

(** The branch of a selected statement block. *)
Definition visit_statement (c : Canon) (envname s : string) (st : WalkState) : WalkState :=
  let my_index := order_counter st in
  let lbl := search LABEL_RX s in
  let label :=
    match truthy lbl with
    | Some l => l
    | None => envname +:+ ":" +:+ pretty my_index
    end in
  let ni := mkNodeInfo c envname label my_index in
  mkWalkState
    (nodes st ++ [ni])
    (<[my_index := ni]> (node_by_index st))
    (match truthy lbl with
     | Some l => <[l := ni]> (label_to_node st)
     | None => label_to_node st
     end)
    (record_uses my_index s (uses_on_node st))
    (proofs st)
    (S my_index)
    (Some my_index).

(** The branch of a proof block. *)
Definition visit_proof (s : string) (st : WalkState) : WalkState :=
  let my_index := order_counter st in
  let target_label := strip <$> search PROVES_RX s in
  let used := foldl (λ used g, used ++ csv_labels g) [] (finditer USES_RX s) in
  mkWalkState
    (nodes st) (node_by_index st) (label_to_node st) (uses_on_node st)
    (proofs st ++ [mkProofInfo my_index target_label used (last_stmt_idx st)])
    (S my_index)
    (last_stmt_idx st).

(** What [walk] does at an environment node before it descends. *)
Definition visit (selected_canonicals : list Canon) (envname s : string)
    (st : WalkState) : WalkState :=
  match canonical_of_env envname with
  | Some c =>
      if bool_decide (c ∈ selected_canonicals) then visit_statement c envname s st
      else if fullmatch_alias PROOF_ALIAS_RX envname then visit_proof s st
      else st
  | None =>
      if fullmatch_alias PROOF_ALIAS_RX envname then visit_proof s st else st
  end.

Fixpoint walk (selected_canonicals : list Canon) (n : LatexNode)
    (st : WalkState) : WalkState :=
  match n with
  | LatexEnvironmentNode envname s ch =>
      foldl (λ st c, walk selected_canonicals c st)
            (visit selected_canonicals envname s st) ch
  | LatexOtherNode ch =>
      foldl (λ st c, walk selected_canonicals c st) st ch
  end.

(** The loop after the walk: a declared target found in [label_to_node]
    replaces the traversal-order one. *)
Definition resolve_proof (label_to_node : gmap string NodeInfo) (p : ProofInfo) : ProofInfo :=
  match truthy (p_target_label p) with
  | Some l =>
      match label_to_node !! l with
      | Some ni => mkProofInfo (p_index p) (p_target_label p) (p_uses p) (Some (index ni))
      | None => p
      end
  | None => p
  end.

Record ParseResult := mkParseResult {
  r_nodes : list NodeInfo;
  r_node_by_index : gmap nat NodeInfo;
  r_label_to_node : gmap string NodeInfo;
  r_uses_on_node : list (nat * list string);
  r_proofs : list ProofInfo
}.

Definition walk_all (selected_canonicals : list Canon) (nodelist : list LatexNode)
    (st : WalkState) : WalkState :=
  foldl (λ st root, walk selected_canonicals root st) st nodelist.

(** [parse_latex_structure], from the node list of [lw.get_latex_nodes()]. *)
Definition parse_latex_structure (nodelist : list LatexNode)
    (selected_canonicals : list Canon) : ParseResult :=
  let st := walk_all selected_canonicals nodelist init_state in
  mkParseResult (nodes st) (node_by_index st) (label_to_node st) (uses_on_node st)
                (resolve_proof (label_to_node st) <$> proofs st).

(* ===================================================================== *)
(** ** The graph assembler: [build_graph] *)
(* ===================================================================== *)

(** The [AGraph] of pygraphviz as the assembler uses it: directed and, by
    the constructor's default, strict.  Nodes are identified by name and an
    edge by its end points, so adding either a second time adds nothing
    (the attributes given are merged into the existing object).  Of the
    attributes only the edge style is kept; node styling is rendering. *)
Record AGraph := mkAGraph {
  g_nodes : list string;
  g_edges : list (string * string * option string)
}.

Definition empty_graph : AGraph := mkAGraph [] [].

Definition add_node (G : AGraph) (n : string) : AGraph :=
  if bool_decide (n ∈ g_nodes G) then G
  else mkAGraph (g_nodes G ++ [n]) (g_edges G).

Fixpoint update_edge (u v : string) (style : option string)
    (es : list (string * string * option string)) : list (string * string * option string) :=
  match es with
  | [] => [(u, v, style)]
  | (u', v', st') :: es' =>
      if decide (u' = u ∧ v' = v)
      then (u', v', match style with Some _ => style | None => st' end) :: es'
      else (u', v', st') :: update_edge u v style es'
  end.

Definition add_edge (G : AGraph) (u v : string) (style : option string) : AGraph :=
  let G := add_node (add_node G u) v in
  mkAGraph (g_nodes G) (update_edge u v style (g_edges G)).

(** The inner loop shared by both edge sources: one edge per label that
    [label_to_node] knows, from that node to the target. *)
Definition add_uses_edges (label_to_node : gmap string NodeInfo)
    (target_label : string) (style : option string)
    (G : AGraph) (labels : list string) : AGraph :=
  foldl (λ G lbl, match label_to_node !! lbl with
                  | Some src => add_edge G (label src) target_label style
                  | None => G
                  end) G labels.

(** The body of [for idx, labels in uses_on_node.items()]. *)
Definition statement_edges (node_by_index : gmap nat NodeInfo)
    (label_to_node : gmap string NodeInfo)
    (G : AGraph) (entry : nat * list string) : AGraph :=
  match node_by_index !! entry.1 with
  | None => G
  | Some target_node =>
      add_uses_edges label_to_node (label target_node) (Some "dashed") G entry.2
  end.

(** The body of [for p in proofs]. *)
Definition proof_edges (node_by_index : gmap nat NodeInfo)
    (label_to_node : gmap string NodeInfo)
    (G : AGraph) (p : ProofInfo) : AGraph :=
  match p_target_node_idx p with
  | None => G
  | Some tgt_idx =>
      match node_by_index !! tgt_idx with
      | None => G
      | Some target_node =>
          add_uses_edges label_to_node (label target_node) None G (p_uses p)
      end
  end.

Definition build_graph (r : ParseResult) : AGraph :=
  let G := foldl (λ G ni, add_node G (label ni)) empty_graph (r_nodes r) in
  let G := foldl (statement_edges (r_node_by_index r) (r_label_to_node r)) G
                 (r_uses_on_node r) in
  foldl (proof_edges (r_node_by_index r) (r_label_to_node r)) G (r_proofs r).

(** Parse, then assemble. *)
Definition pipeline (nodelist : list LatexNode) (selected_canonicals : list Canon) : AGraph :=
  build_graph (parse_latex_structure nodelist selected_canonicals).

(* ===================================================================== *)
(** ** Traversal order *)
(* ===================================================================== *)

(** The environment blocks of a tree in pre-order, depth first: name and
    source text of each. *)
Fixpoint blocks_of (n : LatexNode) : list (string * string) :=
  match n with
  | LatexEnvironmentNode envname s ch => (envname, s) :: concat (blocks_of <$> ch)
  | LatexOtherNode ch => concat (blocks_of <$> ch)
  end.

Definition blocks_of_all (nodelist : list LatexNode) : list (string * string) :=
  concat (blocks_of <$> nodelist).

(** The walk as a left fold of [visit] over a list of blocks. *)
Definition run (sel : list Canon) (blocks : list (string * string))
    (st : WalkState) : WalkState :=
  foldl (λ st b, visit sel b.1 b.2 st) st blocks.

(** How the walker treats a block, read off the conditions of [walk]. *)
Inductive BlockKind :=
| StatementBlock (c : Canon)
| ProofBlock
| Ignored.

Definition classify (sel : list Canon) (envname : string) : BlockKind :=
  match canonical_of_env envname with
  | Some c =>
      if bool_decide (c ∈ sel) then StatementBlock c
      else if fullmatch_alias PROOF_ALIAS_RX envname then ProofBlock else Ignored
  | None => if fullmatch_alias PROOF_ALIAS_RX envname then ProofBlock else Ignored
  end.

Definition is_statement (k : BlockKind) : bool :=
  match k with StatementBlock _ => true | _ => false end.
Definition is_proof (k : BlockKind) : bool :=
  match k with ProofBlock => true | _ => false end.
Definition is_recognized (k : BlockKind) : bool :=
  match k with Ignored => false | _ => true end.

(** The recognized blocks of a document, in traversal order. *)
Definition recognized (sel : list Canon) (nodelist : list LatexNode) : list BlockKind :=
  filter (λ k, is_recognized k = true) (classify sel ∘ fst <$> blocks_of_all nodelist).

(** The positions, counted from [start], of the elements that satisfy [f]. *)
Fixpoint positions {A} (f : A → bool) (start : nat) (l : list A) : list nat :=
  match l with
  | [] => []
  | x :: l' =>
      if f x then start :: positions f (S start) l' else positions f (S start) l'
  end.

(** The label a statement block gets as the block number [i]. *)
Definition label_for (envname s : string) (i : nat) : string :=
  match truthy (search LABEL_RX s) with
  | Some l => l
  | None => envname +:+ ":" +:+ pretty i
  end.

(** The statement nodes a walk records from a list of blocks, numbering
    from [c], each with the label its own text declares, if any. *)
Fixpoint recorded (sel : list Canon) (blocks : list (string * string)) (c : nat)
    : list (NodeInfo * option string) :=
  match blocks with
  | [] => []
  | (envname, s) :: bs =>
      match classify sel envname with
      | StatementBlock k =>
          (mkNodeInfo k envname (label_for envname s c) c, truthy (search LABEL_RX s))
          :: recorded sel bs (S c)
      | ProofBlock => recorded sel bs (S c)
      | Ignored => recorded sel bs c
      end
  end.

(** The last recorded node whose block declares the label [l]. *)
Definition last_declaring (l : string) (rec : list (NodeInfo * option string))
    : option NodeInfo :=
  fst <$> last (filter (λ x, x.2 = Some l) rec).

(** The most recent statement node before the block number [i]. *)
Definition last_statement_before (i : nat) (ns : list NodeInfo) : option nat :=
  index <$> last (filter (λ ni, index ni < i) ns).

(* ===================================================================== *)
(** ** Paths: the functions of [os.path] the resolver calls *)
(* ===================================================================== *)

Definition nl : string := String (ascii_of_nat 10) "".

Definition startswith (p s : string) : bool :=
  match strip_prefix p s with Some _ => true | None => false end.

Fixpoint endswith_sep (s : string) : bool :=
  match s with
  | "" => false
  | String c "" => bool_decide (c = "/"%char)
  | String _ s' => endswith_sep s'
  end.

(** [os.path.join(a, b)] *)
Definition path_join (a b : string) : string :=
  if startswith "/" b then b
  else if bool_decide (a = "") || endswith_sep a then a +:+ b
  else a +:+ "/" +:+ b.

(** [sep.join(comps)] *)
Fixpoint join_sep (comps : list string) : string :=
  match comps with
  | [] => ""
  | [c] => c
  | c :: cs => c +:+ "/" +:+ join_sep cs
  end.

(** The loop of [normpath] over the components of the path. *)
Definition normpath_step (initial_slashes : nat) (new_comps : list string)
    (comp : string) : list string :=
  if bool_decide (comp = "") || bool_decide (comp = ".") then new_comps
  else if bool_decide (comp ≠ "..")
          || (bool_decide (initial_slashes = 0) && bool_decide (new_comps = []))
          || (bool_decide (new_comps ≠ []) && bool_decide (last new_comps = Some ".."))
       then new_comps ++ [comp]
       else removelast new_comps.

(** [os.path.normpath(path)] *)
Definition normpath (path : string) : string :=
  if bool_decide (path = "") then "."
  else
    let initial_slashes :=
      if startswith "/" path
      then if startswith "//" path && negb (startswith "///" path) then 2 else 1
      else 0 in
    let comps := foldl (normpath_step initial_slashes) [] (split_on "/"%char path) in
    let path :=
      match initial_slashes with
      | 0 => join_sep comps
      | 1 => "/" +:+ join_sep comps
      | _ => "//" +:+ join_sep comps
      end in
    if bool_decide (path = "") then "." else path.

(** [os.path.abspath(path)], the working directory of the process given. *)
Definition abspath (cwd path : string) : string :=
  if startswith "/" path then normpath path else normpath (path_join cwd path).

Fixpoint contains (c : ascii) (s : string) : bool :=
  match s with
  | "" => false
  | String d s' => bool_decide (d = c) || contains c s'
  end.

(** [p[p.rfind(sep) + 1:]] and [p[:p.rfind(sep) + 1]] *)
Fixpoint basename (p : string) : string :=
  match p with
  | "" => ""
  | String c p' =>
      if contains "/" p' then basename p'
      else if decide (c = "/"%char) then p' else p
  end.

Fixpoint dir_head (p : string) : string :=
  match p with
  | "" => ""
  | String c p' =>
      if contains "/" p' then String c (dir_head p')
      else if decide (c = "/"%char) then "/" else ""
  end.

(** [head.rstrip(sep)] *)
Fixpoint rstrip_sep (s : string) : string :=
  match s with
  | "" => ""
  | String c s' =>
      match rstrip_sep s' with
      | "" => if decide (c = "/"%char) then "" else String c ""
      | r => String c r
      end
  end.

(** [os.path.dirname(p)] : the head keeps its slashes when it is made of
    slashes only. *)
Definition dirname (p : string) : string :=
  let head := dir_head p in
  if bool_decide (rstrip_sep head = "") then head else rstrip_sep head.

(** [os.path.splitext(p)[1]] : the text from the last dot of the base name
    on, when a character other than a dot comes before it there. *)
Fixpoint drop_dots (s : string) : string :=
  match s with
  | String "." s' => drop_dots s'
  | _ => s
  end.

Fixpoint from_last_dot (s : string) : string :=
  match s with
  | "" => ""
  | String c s' =>
      match from_last_dot s' with
      | "" => if decide (c = "."%char) then s else ""
      | e => e
      end
  end.

Definition splitext_ext (p : string) : string :=
  from_last_dot (drop_dots (basename p)).

Definition ensure_tex_ext (path : string) : string :=
  if bool_decide (splitext_ext path = "") then path +:+ ".tex" else path.

Definition norm_join (base_dir rel : string) : string :=
  normpath (path_join base_dir rel).

(** A component that [normpath] keeps in an absolute path: not empty,
    neither of the dot names, without a separator. *)
Definition kept_comp (c : string) : Prop :=
  c ≠ "" ∧ c ≠ "." ∧ c ≠ ".." ∧ contains "/" c = false.

(** An absolute path as [normpath] returns it: one or two slashes, then
    the components it keeps, a slash between them. *)
Definition normal_abs (p : string) : Prop :=
  ∃ comps, Forall kept_comp comps ∧
           (p = "/" +:+ join_sep comps ∨ p = "//" +:+ join_sep comps).

(* ===================================================================== *)
(** ** Comments and the include directives *)
(* ===================================================================== *)

(** [.*] : the rest of the line, the newline left in place. *)
Fixpoint drop_line (s : string) : string :=
  match s with
  | "" => ""
  | String c s' => if decide (c = ascii_of_nat 10) then s else drop_line s'
  end.

(** [COMMENT_RX] away from the start of the text: a character other than
    a backslash, a percent sign, the rest of the line.  The group is that
    first character. *)
Definition COMMENT_RX : matcher string := λ s,
  match s with
  | String c (String "%" r) =>
      if decide (c = "\"%char) then None else Some (String c "", drop_line r)
  | _ => None
  end.

(** [strip_comments]: at the very start of the text the alternative [^]
    of the pattern matches a percent sign with nothing before it. *)
Definition strip_comments (text : string) : string :=
  match text with
  | String "%" r => re_sub COMMENT_RX id (drop_line r)
  | _ => re_sub COMMENT_RX id text
  end.

(** The literal, optional white space, a non-empty braced group. *)
Definition directive1 (name : string) : matcher string := λ s,
  r ← strip_prefix name s; braced1 (skip_spaces r).

(** The literal and two such groups. *)
Definition directive2 (name : string) : matcher (string * string) := λ s,
  r ← strip_prefix name s;
  '(g1, r) ← braced1 (skip_spaces r);
  '(g2, r) ← braced1 (skip_spaces r);
  Some ((g1, g2), r).

Definition INPUT_BRACED_RX : matcher string := directive1 "\input".
Definition INCLUDE_RX : matcher string := directive1 "\include".
Definition IMPORT_RX : matcher (string * string) := directive2 "\import".
Definition SUBIMPORT_RX : matcher (string * string) := directive2 "\subimport".

(** [INCLUDEONLY_RX]: as [directive1], the group possibly empty. *)
Definition INCLUDEONLY_RX : matcher string := λ s,
  r ← strip_prefix "\includeonly" s; braced0 (skip_spaces r).

(** The longest run of characters that are neither white space nor a
    percent sign, and what follows it. *)
Fixpoint span_token (s : string) : string * string :=
  match s with
  | "" => ("", "")
  | String c s' =>
      if is_space c || bool_decide (c = "%"%char) then ("", s)
      else let '(g, r) := span_token s' in (String c g, r)
  end.

(** [INPUT_SPACEFORM_RX]: the literal, white space (at least one
    character of it), a non-empty token. *)
Definition INPUT_SPACEFORM_RX : matcher string := λ s,
  r ← strip_prefix "\input" s;
  match r with
  | String c _ =>
      if is_space c
      then match span_token (skip_spaces r) with
           | ("", _) => None
           | (g, rest) => Some (g, rest)
           end
      else None
  | "" => None
  end.

(* ===================================================================== *)
(** ** The source resolver: [load_and_expand] *)
(* ===================================================================== *)

(** The exceptions that [read_file] can raise: those of [open] and of the
    decoding of the bytes read.  [FileNotFoundError] is the one that
    [expand] catches; none of the others is a subclass of it, so none of
    them is caught. *)
Inductive exn :=
| FileNotFoundError
| NotADirectoryError
| IsADirectoryError
| PermissionError
| UnicodeDecodeError
| OSError
| ValueError.

Global Instance exn_eq_dec : EqDecision exn.
Proof. solve_decision. Defined.

(** What [read_file] does at an absolute path: it returns the decoded
    text of the file there, or it raises. *)
Inductive entry :=
| Readable (text : string)
| Unreadable (e : exn).

(** What a part of the resolver does: it returns, or an exception that
    nothing caught leaves it, or the fuel has run out. *)
Inductive result (A : Type) :=
| Done (a : A)
| Raise (e : exn)
| NoFuel.
Arguments Done {A} a.
Arguments Raise {A} e.
Arguments NoFuel {A}.

Global Instance result_ret : MRet result := λ A a, Done a.

Global Instance result_bind : MBind result := λ A B f m,
  match m with
  | Done a => f a
  | Raise e => Raise e
  | NoFuel => NoFuel
  end.

(** [rx.sub(repl, text)] for a replacement function that reads and updates
    the set [visited], and may raise or run out of fuel: the matches are
    found on the text as it is, the replacements computed from left to
    right, each from the set that the one before it left. *)
Fixpoint sub_pieces_st {G}
    (repl : G → gset string → result (string * gset string))
    (ps : list (piece G)) (visited : gset string) : result (string * gset string) :=
  match ps with
  | [] => Done ("", visited)
  | Lit c :: ps' =>
      '(t, v) ← sub_pieces_st repl ps' visited; Done (String c t, v)
  | Hit g :: ps' =>
      '(r, v1) ← repl g visited;
      '(t, v2) ← sub_pieces_st repl ps' v1;
      Done (r +:+ t, v2)
  end.

Definition sub_st {G} (m : matcher G)
    (repl : G → gset string → result (string * gset string))
    (text : string) (visited : gset string) : result (string * gset string) :=
  sub_pieces_st repl (scan m text) visited.

Definition collect_includeonly (text : string) : gset string :=
  foldl (λ incs g, incs ∪ list_to_set (csv_labels g)) ∅
        (finditer INCLUDEONLY_RX (strip_comments text)).

Inductive outcome :=
| Returned (text : string)
| Raised (e : exn)
| OutOfFuel.




Section Resolver.
(** The working directory of the process, and what [read_file] does at
    each absolute path: a path that is no key of [fs] is one at which
    [open] raises [FileNotFoundError]. *)
Variable cwd : string.
Variable fs : gmap string entry.

Definition read_file (p : string) : exn + string :=
  match fs !! p with
  | Some (Readable text) => inr text
  | Some (Unreadable e) => inl e
  | None => inl FileNotFoundError
  end.

(** The closure [expand]; [fuel] bounds the depth of the recursion.  Of
    the exceptions of [read_file] it catches [FileNotFoundError] alone. *)
Fixpoint expand (fuel : nat) (includeonly : gset string)
    (path current_dir : string) (visited : gset string)
    : result (string * gset string) :=
  match fuel with
  | 0 => NoFuel
  | S fuel' =>
      let abs_path := abspath cwd path in
      if decide (abs_path ∈ visited) then Done ("", visited)
      else
        let visited := {[abs_path]} ∪ visited in
        match read_file abs_path with
        | inl FileNotFoundError =>
            Done ("% [depgraph] missing file: " +:+ abs_path +:+ nl, visited)
        | inl e => Raise e
        | inr raw =>
            let text := strip_comments raw in
            let repl_import (g : string * string) :=
              let inc_dir := norm_join current_dir g.1 in
              let inc_path := ensure_tex_ext (norm_join inc_dir g.2) in
              expand fuel' includeonly inc_path inc_dir in
            let repl_input (g : string) :=
              let rel := strip g in
              let inc_path := ensure_tex_ext (norm_join current_dir rel) in
              let inc_dir := dirname inc_path in
              expand fuel' includeonly inc_path inc_dir in
            let repl_include (g : string) (visited : gset string) :=
              let name := strip g in
              let base_name := basename name in
              if bool_decide (includeonly ≠ ∅)
                 && bool_decide (base_name ∉ includeonly)
              then Done ("% [depgraph] skipped by \includeonly: " +:+ name +:+ nl,
                         visited)
              else
                let inc_path := ensure_tex_ext (norm_join current_dir name) in
                let inc_dir := dirname inc_path in
                expand fuel' includeonly inc_path inc_dir visited in
            '(text, visited) ← sub_st IMPORT_RX repl_import text visited;
            '(text, visited) ← sub_st SUBIMPORT_RX repl_import text visited;
            '(text, visited) ← sub_st INPUT_BRACED_RX repl_input text visited;
            '(text, visited) ← sub_st INPUT_SPACEFORM_RX repl_input text visited;
            sub_st INCLUDE_RX repl_include text visited
        end
  end.

Definition load_and_expand (fuel : nat) (main_path : string) : outcome :=
  let main_path := abspath cwd main_path in
  let project_dir := dirname main_path in
  match read_file main_path with
  | inl e => Raised e
  | inr main_text =>
      let includeonly := collect_includeonly main_text in
      match expand fuel includeonly main_path project_dir ∅ with
      | Done (text, _) => Returned text
      | Raise e => Raised e
      | NoFuel => OutOfFuel
      end
  end.


End Resolver.

(* ===================================================================== *)
(** ** The invariant of the walk *)
(* ===================================================================== *)

(** What holds of the walker's variables between any two blocks. *)
Record walk_inv (st : WalkState) : Prop := mkWalkInv {
  inv_nodes_lt : Forall (λ ni, index ni < order_counter st) (nodes st);
  inv_proofs_lt : Forall (λ p, p_index p < order_counter st) (proofs st);
  inv_by_index : ∀ i ni,
    node_by_index st !! i = Some ni ↔ ni ∈ nodes st ∧ index ni = i;
  inv_by_label : ∀ l ni,
    label_to_node st !! l = Some ni → ni ∈ nodes st;
  inv_last : last_stmt_idx st = index <$> last (nodes st);
  inv_fallback :
    Forall (λ p, p_target_node_idx p = last_statement_before (p_index p) (nodes st))
           (proofs st)
}.

(** Every end point of every edge is one of the labels [L]. *)
Definition edges_within (L : list string) (G : AGraph) : Prop :=
  ∀ u v style, (u, v, style) ∈ g_edges G → u ∈ L ∧ v ∈ L.

(** Every node and every end point of every edge is one of the labels [L]. *)
Definition graph_within (L : list string) (G : AGraph) : Prop :=
  (∀ n, n ∈ g_nodes G → n ∈ L) ∧ edges_within L G.

(* ===================================================================== *)
(** ** Documents used as examples *)
(* ===================================================================== *)

(** A definition labelled D1, a theorem labelled T1, a proof that declares
    its target and one use. *)
Definition doc_scenario1 : list Tex :=
  [ TEnv "definition" [TLeaf "\label{D1}"];
    TEnv "theorem" [TLeaf "\label{T1}"];
    TEnv "proof" [TLeaf "\proves{T1}"; TLeaf "\uses{D1}"] ].

(** Two statements that declare the same label. *)
Definition doc_same_label : list Tex :=
  [ TEnv "theorem" [TLeaf "\label{X}"];
    TEnv "lemma" [TLeaf "\label{X}"] ].

(** Two statements without a label, in the same kind of block. *)
Definition doc_unlabelled : list Tex :=
  [ TEnv "lemma" [TLeaf "first"];
    TEnv "lemma" [TLeaf "second"] ].

(** An unlabelled theorem, a labelled lemma, and a proof whose declared
    target is the synthetic label of the theorem. *)
Definition doc_proves_synthetic : list Tex :=
  [ TEnv "theorem" [TLeaf "statement"];
    TEnv "lemma" [TLeaf "\label{L}"];
    TEnv "proof" [TLeaf "\proves{theorem:0}"; TLeaf "\uses{L}"] ].



(** A theorem whose proof uses a label that no statement carries. *)
Definition doc_dangling : list Tex :=
  [ TEnv "theorem" [TLeaf "\label{T1}"];
    TEnv "proof" [TLeaf "\uses{nowhere}"] ].

(* ===================================================================== *)
(** ** Texts without directives, and projects used as examples *)
(* ===================================================================== *)

(** The pattern matches at no position of the text. *)
Fixpoint no_match {G} (m : matcher G) (s : string) : Prop :=
  match s with
  | "" => True
  | String _ s' => m s = None ∧ no_match m s'
  end.

(** A text scanned without a match: its characters. *)
Fixpoint lits {G} (s : string) : list (piece G) :=
  match s with
  | "" => []
  | String c s' => Lit c :: lits s'
  end.

(** The pattern starts with a backslash. *)
Definition needs_backslash {G} (m : matcher G) : Prop :=
  ∀ c s, c ≠ "\"%char → m (String c s) = None.

(** Text with neither a backslash nor a percent sign: no directive, no
    comment. *)
Definition is_plain (s : string) : bool :=
  negb (contains "\" s) && negb (contains "%" s).

(** A plain, non-empty argument of a directive, without a closing brace. *)
Definition is_target (rel : string) : bool :=
  is_plain rel && negb (contains "}" rel) && negb (bool_decide (rel = "")).

Definition input_directive (rel : string) : string :=
  "\input{" +:+ rel +:+ "}".

(** [contains x followed by y]: somewhere in the text [x], and [y] after it. *)
Definition contains_in_order (text x y : string) : Prop :=
  ∃ pre mid post, text = pre +:+ x +:+ mid +:+ y +:+ post.


(** The pattern matches once in the text: [a1] comes before the match,
    [g] are its groups, [a2] comes after it. *)
Definition sole_hit {G} (m : matcher G) (text a1 : string) (g : G) (a2 : string)
    : Prop :=
  scan m text = lits a1 ++ Hit g :: lits a2.

(** An inclusion directive, by the pattern of [expand] that finds it,
    with the groups of the match. *)
Inductive directive :=
| DImport (g1 g2 : string)
| DSubimport (g1 g2 : string)
| DInputBraced (g : string)
| DInputSpace (g : string)
| DInclude (g : string).

(** The path that the replacement function of the directive hands to
    [expand], and the directory it hands with it: [repl_import] for the
    first two forms, [repl_input_braced], [repl_input_space] and
    [repl_include] for the others. *)
Definition target (current_dir : string) (d : directive) : string * string :=
  match d with
  | DImport g1 g2 | DSubimport g1 g2 =>
      let inc_dir := norm_join current_dir g1 in
      (ensure_tex_ext (norm_join inc_dir g2), inc_dir)
  | DInputBraced g | DInputSpace g | DInclude g =>
      let inc_path := ensure_tex_ext (norm_join current_dir (strip g)) in
      (inc_path, dirname inc_path)
  end.

(** The test of [repl_include]: the directive is an [\include] that the
    allow-list leaves out. *)
Definition skipped (includeonly : gset string) (d : directive) : bool :=
  match d with
  | DInclude g =>
      bool_decide (includeonly ≠ ∅) && bool_decide (basename (strip g) ∉ includeonly)
  | _ => false
  end.

(** The directive [d] is the only one that the five passes of [expand]
    find in [text], when its replacement is [r]: the patterns tried
    before that of [d] match nowhere in [text], the pattern of [d] matches
    once, between [a1] and [a2], and the patterns tried after it match
    nowhere in the text with [r] in the place of the directive. *)
Definition sole_directive (text : string) (d : directive) (a1 a2 r : string) : Prop :=
  let text' := a1 +:+ r +:+ a2 in
  match d with
  | DImport g1 g2 =>
      sole_hit IMPORT_RX text a1 (g1, g2) a2 ∧
      no_match SUBIMPORT_RX text' ∧ no_match INPUT_BRACED_RX text' ∧
      no_match INPUT_SPACEFORM_RX text' ∧ no_match INCLUDE_RX text'
  | DSubimport g1 g2 =>
      no_match IMPORT_RX text ∧
      sole_hit SUBIMPORT_RX text a1 (g1, g2) a2 ∧
      no_match INPUT_BRACED_RX text' ∧
      no_match INPUT_SPACEFORM_RX text' ∧ no_match INCLUDE_RX text'
  | DInputBraced g =>
      no_match IMPORT_RX text ∧ no_match SUBIMPORT_RX text ∧
      sole_hit INPUT_BRACED_RX text a1 g a2 ∧
      no_match INPUT_SPACEFORM_RX text' ∧ no_match INCLUDE_RX text'
  | DInputSpace g =>
      no_match IMPORT_RX text ∧ no_match SUBIMPORT_RX text ∧
      no_match INPUT_BRACED_RX text ∧
      sole_hit INPUT_SPACEFORM_RX text a1 g a2 ∧
      no_match INCLUDE_RX text'
  | DInclude g =>
      no_match IMPORT_RX text ∧ no_match SUBIMPORT_RX text ∧
      no_match INPUT_BRACED_RX text ∧ no_match INPUT_SPACEFORM_RX text ∧
      sole_hit INCLUDE_RX text a1 g a2
  end.


(** The exceptions that an include target can raise in a run over [fs]:
    those of its unreadable entries, but for the one that [expand]
    catches. *)
Definition raised_by (fs : gmap string entry) (e : exn) : Prop :=
  e ≠ FileNotFoundError ∧ ∃ p, fs !! p = Some (Unreadable e).

(** A part of the resolver that started from the set [v] has come to an
    end: it returned with a set that includes [v], or it raised an
    exception that [P] accounts for. *)
Definition settled (P : exn → Prop) (v : gset string)
    (r : result (string * gset string)) : Prop :=
  match r with
  | Done (_, v') => v ⊆ v'
  | Raise e => P e
  | NoFuel => False
  end.







(** Two files that include each other; the directive of A comes first in
    its text. *)
Definition fs_cycle : gmap string entry :=
  {[ "/p/A.tex" := Readable "\input{B}[A]";
     "/p/B.tex" := Readable "[B]\input{A}" ]}.

(** Two files that include each other, with TeX commands and a comment
    around their directives, an [\include] in A and an [\import] in B. *)
Definition fs_cycle_tex : gmap string entry :=
  {[ "/p/A.tex" := Readable ("\section{A}% note" +:+ nl +:+ "\include{B} end");
     "/p/B.tex" := Readable "\textbf{B} \import{./}{A.tex}" ]}.

(** Two files, X and Y, both included by the entry file, that both
    include Z; nothing includes a file that includes it. *)
Definition fs_diamond : gmap string entry :=
  {[ "/p/main.tex" := Readable "\input{X}\input{Y}";
     "/p/X.tex" := Readable "x(\input{Z})";
     "/p/Y.tex" := Readable "y(\input{Z})";
     "/p/Z.tex" := Readable "z" ]}.

(* ===================================================================== *)
(** ** The section slicer: [find_chapter_ranges] and the slicing of [App.scan] *)
(* ===================================================================== *)

(** The text after the first closing bracket. *)
Fixpoint until_rbracket (s : string) : option string :=
  match s with
  | "" => None
  | String c s' => if decide (c = "]"%char) then Some s' else until_rbracket s'
  end.

(** [CHAPTER_RX]: the literal [\chapter], an optional star, white space, an
    optional bracketed short title, white space, a braced title (possibly
    empty).  Once a bracket opens, the pattern can only go on through
    its closing bracket. *)
Definition CHAPTER_RX : matcher string := λ s,
  r ← strip_prefix "\chapter" s;
  let r := match r with String "*" r' => r' | _ => r end in
  r ← match skip_spaces r with
      | String "[" r' => until_rbracket r'
      | r' => Some r'
      end;
  braced0 (skip_spaces r).

(** [rx.finditer(s)] with [m.start()]: the offset of each match and its
    groups.  [pos] is the offset of the head of [s]. *)
Fixpoint finditer_at {G} (m : matcher G) (pos skip : nat) (s : string) : list (nat * G) :=
  match s with
  | "" => []
  | String _ s' =>
      match skip with
      | S k => finditer_at m (S pos) k s'
      | 0 =>
          match m s with
          | Some (g, rest) =>
              (pos, g) :: finditer_at m (S pos)
                                      (String.length s' - String.length rest) s'
          | None => finditer_at m (S pos) 0 s'
          end
      end
  end.

(** One entry of the list [chapters]. *)
Record Chapter := mkChapter {
  ch_title : string;
  ch_start : nat;
  ch_end : nat
}.

(** The loop over [enumerate(matches)]: a chapter ends where the next
    match starts, the last one at the end of the text. *)
Fixpoint chapters_from (matches : list (nat * string)) (len : nat) : list Chapter :=
  match matches with
  | [] => []
  | (start, g) :: rest =>
      mkChapter (strip g) start
                (match rest with (next, _) :: _ => next | [] => len end)
      :: chapters_from rest len
  end.

Definition find_chapter_ranges (tex : string) : list Chapter :=
  chapters_from (finditer_at CHAPTER_RX 0 0 tex) (String.length tex).

(** [s[a:b]] *)
Definition slice (s : string) (a b : nat) : string := String.substring a (b - a) s.

(** [s[a:]] *)
Fixpoint drop_chars (a : nat) (s : string) : string :=
  match a, s with
  | S a', String _ s' => drop_chars a' s'
  | _, _ => s
  end.

(** What the chapter dialog returns on OK: [None] when the text has no
    chapter, else the ranges of the chapters whose box is ticked, in
    document order.  [ticks] are the states of the check boxes, one per
    chapter. *)
Definition choose_chapters_from_tex (expanded_tex : string) (ticks : list bool)
    : option (list (nat * nat)) :=
  match find_chapter_ranges expanded_tex with
  | [] => None
  | chapters =>
      Some (omap (λ vc : bool * Chapter,
                    if vc.1 then Some (ch_start vc.2, ch_end vc.2) else None)
                 (zip ticks chapters))
  end.

Definition separator : string :=
  nl +:+ nl +:+ "% [chapter-slice separator]" +:+ nl +:+ nl.

(** The text [App.scan] hands to the walker. *)
Definition filtered_tex (expanded : string) (chapter_ranges : option (list (nat * nat)))
    : string :=
  match chapter_ranges with
  | None => expanded
  | Some ranges =>
      foldr (λ r acc, slice expanded r.1 r.2 +:+ separator +:+ acc) "" ranges
  end.


(* ===================================================================== *)
(** ** What is shown of the nodes: the label attribute and the counts *)
(* ===================================================================== *)

(** The [label=] attribute of a graph node: [ni.label.split(":")[-1]]. *)
Definition display_label (ni : NodeInfo) : string :=
  default "" (last (split_on ":"%char (label ni))).

Definition display_names (c : Canon) : string :=
  match c with
  | definition => "Definition"
  | theorem => "Theorem"
  | lemma => "Lemma"
  | proposition => "Proposition"
  | corollary => "Corollary"
  | construction => "Construction"
  | example => "Example"
  | remark => "Remark"
  end.

(** [counts[canon]] after the loop [for n in nodes: counts[n.canon] += 1]. *)
Definition count_canon (ns : list NodeInfo) (c : Canon) : nat :=
  length (filter (λ n, canon n = c) ns).

(** [", ".join(pretty)] *)
Fixpoint join_comma (parts : list string) : string :=
  match parts with
  | [] => ""
  | [p] => p
  | p :: ps => p +:+ ", " +:+ join_comma ps
  end.

(** The categories the status line of [App.scan] reports, in canonical
    order, each with its count. *)
Definition reported_counts (ns : list NodeInfo) (selected : list Canon)
    : list (Canon * nat) :=
  (λ c, (c, count_canon ns c)) <$> filter (λ c, c ∈ selected) CANONICAL_ORDER.

(** The status line at the end of [App.scan]. *)
Definition found_status (ns : list NodeInfo) (selected : list Canon) : string :=
  match (λ e : Canon * nat, display_names e.1 +:+ ":" +:+ pretty e.2)
          <$> reported_counts ns selected with
  | [] => "No selected categories found."
  | parts => "Found: " +:+ join_comma parts
  end.

(** A character other than a dot occurs in the text. *)
Fixpoint has_nondot (s : string) : bool :=
  match s with
  | "" => false
  | String c s' => negb (bool_decide (c = "."%char)) || has_nondot s'
  end.

(** A text with one [\include] directive. *)
Definition include_directive (name : string) : string :=
  "\include{" +:+ name +:+ "}".

(** [first_alias] on a name already in lower case. *)
Fixpoint first_alias_lower (tbl : list (Canon * list string)) (x : string) : option Canon :=
  match tbl with
  | [] => None
  | (canon, rx) :: tbl' =>
      if bool_decide (x ∈ rx) then Some canon else first_alias_lower tbl' x
  end.

(** A label as the assembler may see it: not empty, no white space at
    either end. *)
Definition clean_label (l : string) : Prop := l ≠ "" ∧ strip l = l.

(** What holds of the recorded uses between any two blocks. *)
Record uses_inv (st : WalkState) : Prop := mkUsesInv {
  uinv_proofs : Forall (λ p, Forall clean_label (p_uses p)) (proofs st);
  uinv_entries : Forall (λ e, e.2 ≠ [] ∧ Forall clean_label e.2) (uses_on_node st);
  uinv_keys_lt : Forall (λ i, i < order_counter st) (uses_on_node st).*1;
  uinv_keys_sorted : StronglySorted lt (uses_on_node st).*1;
  uinv_keys_nodes : Forall (λ i, i ∈ index <$> nodes st) (uses_on_node st).*1
}.

(* ===================================================================== *)
(** ** The edges a parse asks for *)
(* ===================================================================== *)

(** The labels of the nodes that the labels of a list resolve to. *)
Definition resolved_sources (label_to_node : gmap string NodeInfo)
    (labels : list string) : list string :=
  omap (λ l, label <$> label_to_node !! l) labels.

(** The end points the statement loop of [build_graph] passes to
    [add_edge], in order. *)
Definition statement_edge_requests (r : ParseResult) : list (string * string) :=
  e ← r_uses_on_node r;
  match r_node_by_index r !! e.1 with
  | None => []
  | Some target_node =>
      (λ u, (u, label target_node)) <$> resolved_sources (r_label_to_node r) e.2
  end.

(** The end points the proof loop passes to [add_edge], in order. *)
Definition proof_edge_requests (r : ParseResult) : list (string * string) :=
  p ← r_proofs r;
  match p_target_node_idx p ≫= (r_node_by_index r !!.) with
  | None => []
  | Some target_node =>
      (λ u, (u, label target_node)) <$> resolved_sources (r_label_to_node r) (p_uses p)
  end.

(** The end points of the edges of a list. *)
Definition edge_keys (es : list (string * string * option string))
    : list (string * string) := fst <$> es.

(** The same theorem block, bare and inside a group. *)
Definition doc_bare : list Tex := [ TEnv "theorem" [TLeaf "\label{T}"] ].
Definition doc_grouped : list Tex := [ TGroup [TEnv "theorem" [TLeaf "\label{T}"]] ].

(** The entry file allows part A only and includes part A and part B. *)
Definition fs_includeonly : gmap string entry :=
  {[ "/p/main.tex" := Readable "\includeonly{partA}\include{partA}\include{partB}";
     "/p/partA.tex" := Readable "[A]";
     "/p/partB.tex" := Readable "[B]" ]}.

(** A file with one [\include], for a run with an allow-list. *)
Definition fs_skip : gmap string entry :=
  {[ "/p/main.tex" := Readable "x\include{partB}y" ]}.

(** A file that inputs a file that is not there. *)
Definition fs_missing : gmap string entry :=
  {[ "/p/main.tex" := Readable "before \input{gone} after" ]}.

(** A file that inputs a path below itself: a path through a file that
    is no directory, at which [open] raises [NotADirectoryError]. *)
Definition fs_unreadable : gmap string entry :=
  {[ "/p/main.tex" := Readable "before \input{main.tex/x} after";
     "/p/main.tex/x.tex" := Unreadable NotADirectoryError ]}.

(** No percent sign of the text starts a comment: each one comes right
    after a backslash.  [escaped] tells whether the character before the
    text is a backslash. *)
Fixpoint percent_escaped (escaped : bool) (s : string) : bool :=
  match s with
  | "" => true
  | String c s' =>
      (if decide (c = "%"%char) then escaped else true)
      && percent_escaped (bool_decide (c = "\"%char)) s'
  end.

(** The text of a block that declares the label [l] after the text [a]. *)
Definition labelled_text (a l rest : string) : string :=
  a +:+ "\label{" +:+ l +:+ "}" +:+ rest.

(** The text [p] occurs somewhere in [s]. *)
Fixpoint occurs (p s : string) : bool :=
  match s with
  | "" => false
  | String _ s' => startswith p s || occurs p s'
  end.

(* ===================================================================== *)
(** ** The walk is a fold over the blocks in pre-order *)
(* ===================================================================== *)

Lemma LatexNode_nested_ind (P : LatexNode → Prop) :
  (∀ envname s ch, Forall P ch → P (LatexEnvironmentNode envname s ch)) →
  (∀ ch, Forall P ch → P (LatexOtherNode ch)) →
  ∀ n, P n.
Proof.
  intros Henv Hother. fix IH 1.
  intros [envname s ch | ch]; [apply Henv | apply Hother];
    induction ch as [|c ch IHch]; constructor; auto.
Qed.

Lemma run_app sel bs1 bs2 st :
  run sel (bs1 ++ bs2) st = run sel bs2 (run sel bs1 st).
Proof. unfold run. by rewrite foldl_app. Qed.

Lemma walk_children_run sel ch :
  Forall (λ n, ∀ st, walk sel n st = run sel (blocks_of n) st) ch →
  ∀ st, foldl (λ st c, walk sel c st) st ch = run sel (concat (blocks_of <$> ch)) st.
Proof.
  induction 1 as [|n ch Hn _ IH]; intros st; simpl; [done|].
  by rewrite run_app, <- Hn, IH.
Qed.

Lemma walk_run sel n st : walk sel n st = run sel (blocks_of n) st.
Proof.
  revert st. induction n as [envname s ch IH | ch IH] using LatexNode_nested_ind;
    intros st; simpl.
  - by rewrite (walk_children_run sel ch IH).
  - by rewrite (walk_children_run sel ch IH).
Qed.

Lemma walk_all_run sel nodelist st :
  walk_all sel nodelist st = run sel (blocks_of_all nodelist) st.
Proof.
  unfold walk_all, blocks_of_all. apply walk_children_run.
  apply Forall_forall. intros n _ st'. apply walk_run.
Qed.

Lemma visit_classify sel envname s st :
  visit sel envname s st =
  match classify sel envname with
  | StatementBlock c => visit_statement c envname s st
  | ProofBlock => visit_proof s st
  | Ignored => st
  end.
Proof.
  unfold visit, classify. destruct (canonical_of_env envname) as [c|];
    repeat case_match; done.
Qed.

Lemma run_nil sel st : run sel [] st = st.
Proof. done. Qed.

Lemma run_cons sel b bs st :
  run sel (b :: bs) st = run sel bs (visit sel b.1 b.2 st).
Proof. done. Qed.

(** Whatever holds at the start and is kept by [visit] holds at the end. *)
Lemma run_invariant (P : WalkState → Prop) sel bs st :
  P st → (∀ st envname s, P st → P (visit sel envname s st)) → P (run sel bs st).
Proof.
  intros H0 Hstep. revert st H0.
  induction bs as [|[envname s] bs IH]; intros st H0; [done|].
  rewrite run_cons. apply IH, Hstep, H0.
Qed.

(* ===================================================================== *)
(** ** Generic facts on lists *)
(* ===================================================================== *)

Lemma last_cons_case {A} (x : A) (l : list A) :
  last (x :: l) = match last l with Some y => Some y | None => Some x end.
Proof. destruct l as [|y l]; [done|]. simpl. by destruct (last (y :: l)) eqn:E;
  [|apply last_None in E]. Qed.

Lemma positions_ge {A} (f : A → bool) start l :
  Forall (λ i, start ≤ i) (positions f start l).
Proof.
  revert start. induction l as [|x l IH]; intros start; simpl; [constructor|].
  assert (Forall (λ i, start ≤ i) (positions f (S start) l)) as Htl.
  { eapply Forall_impl; [apply IH|]. simpl. lia. }
  destruct (f x); [constructor; [lia|done] | done].
Qed.

Lemma positions_sorted {A} (f : A → bool) start l :
  StronglySorted lt (positions f start l).
Proof.
  revert start. induction l as [|x l IH]; intros start; simpl; [constructor|].
  destruct (f x); [|apply IH]. constructor; [apply IH|].
  eapply Forall_impl; [apply (positions_ge f (S start) l)|]. simpl. lia.
Qed.

Lemma positions_lt {A} (f : A → bool) start l :
  Forall (λ i, i < start + length l) (positions f start l).
Proof.
  revert start. induction l as [|x l IH]; intros start; simpl; [constructor|].
  assert (Forall (λ i, i < start + S (length l)) (positions f (S start) l)) as Htl.
  { eapply Forall_impl; [apply IH|]. simpl. lia. }
  destruct (f x); [constructor; [lia|done] | done].
Qed.

Lemma positions_disjoint {A} (f g : A → bool) start l i :
  (∀ x, f x = true → g x = true → False) →
  i ∈ positions f start l → i ∈ positions g start l → False.
Proof.
  intros Hfg. revert start. induction l as [|x l IH]; intros start; simpl.
  - by intros ?%elem_of_nil.
  - pose proof (positions_ge f (S start) l) as Hf.
    pose proof (positions_ge g (S start) l) as Hg.
    rewrite Forall_forall in Hf, Hg.
    destruct (f x) eqn:Ef, (g x) eqn:Eg; [by destruct (Hfg x)| | |by apply IH].
    + intros [->|Hi]%elem_of_cons Hj; [apply Hg in Hj; lia|by eapply IH].
    + intros Hi [->|Hj]%elem_of_cons; [apply Hf in Hi; lia|by eapply IH].
Qed.

Lemma StronglySorted_lt_NoDup (l : list nat) : StronglySorted lt l → NoDup l.
Proof.
  induction 1 as [|x l _ IH Hx]; constructor; [|done].
  intros Hin. rewrite Forall_forall in Hx. apply Hx in Hin. lia.
Qed.

(* ===================================================================== *)
(** ** What a walk records, block by block *)
(* ===================================================================== *)

Lemma run_nodes sel bs st :
  nodes (run sel bs st) = nodes st ++ (recorded sel bs (order_counter st)).*1.
Proof.
  revert st. induction bs as [|[envname s] bs IH]; intros st.
  - simpl. by rewrite app_nil_r.
  - rewrite run_cons, IH, visit_classify. simpl.
    destruct (classify sel envname); simpl; [by rewrite <- app_assoc | done | done].
Qed.

Lemma recorded_indices sel bs c :
  index <$> (recorded sel bs c).*1 =
  positions is_statement c
    (filter (λ k, is_recognized k = true) (classify sel ∘ fst <$> bs)).
Proof.
  revert c. induction bs as [|[envname s] bs IH]; intros c; [done|].
  simpl. rewrite filter_cons. simpl.
  destruct (classify sel envname); simpl; by rewrite ?IH.
Qed.

Lemma run_proof_indices sel bs st :
  p_index <$> proofs (run sel bs st) =
  (p_index <$> proofs st) ++
  positions is_proof (order_counter st)
    (filter (λ k, is_recognized k = true) (classify sel ∘ fst <$> bs)).
Proof.
  revert st. induction bs as [|[envname s] bs IH]; intros st.
  - simpl. by rewrite app_nil_r.
  - rewrite run_cons, IH, visit_classify. simpl. rewrite filter_cons. simpl.
    destruct (classify sel envname); simpl; [done | | done].
    by rewrite fmap_app, <- app_assoc.
Qed.

Lemma run_label_to_node sel bs st l :
  label_to_node (run sel bs st) !! l =
  match last_declaring l (recorded sel bs (order_counter st)) with
  | Some ni => Some ni
  | None => label_to_node st !! l
  end.
Proof.
  revert st. induction bs as [|[envname s] bs IH]; intros st; [done|].
  rewrite run_cons, IH, visit_classify. simpl.
  destruct (classify sel envname) as [k| |]; simpl; [|done|done].
  unfold last_declaring, label_for. rewrite filter_cons. simpl.
  destruct (truthy (search LABEL_RX s)) as [l0|] eqn:El0.
  - destruct (decide (Some l0 = Some l)) as [[= ->]|Hne].
    + rewrite last_cons_case.
      destruct (last (filter _ (recorded sel bs _))) as [[nj oj]|]; simpl; [done|].
      by rewrite lookup_insert_eq.
    + destruct (last (filter _ (recorded sel bs _))) as [[nj oj]|]; simpl; [done|].
      rewrite lookup_insert_ne; [done|congruence].
  - rewrite decide_False by done. done.
Qed.

(* ===================================================================== *)
(** ** The invariant holds throughout the walk *)
(* ===================================================================== *)

Lemma filter_all {A} (P : A → Prop) `{∀ x, Decision (P x)} (l : list A) :
  Forall P l → filter P l = l.
Proof.
  induction 1 as [|x l Hx _ IH]; [done|].
  rewrite filter_cons, decide_True by done. by rewrite IH.
Qed.

Lemma last_statement_before_snoc i ns ni :
  i ≤ index ni →
  last_statement_before i (ns ++ [ni]) = last_statement_before i ns.
Proof.
  intros Hle. unfold last_statement_before.
  rewrite filter_app, filter_cons, decide_False by lia.
  by rewrite filter_nil, app_nil_r.
Qed.

Lemma walk_inv_init : walk_inv init_state.
Proof.
  split; simpl; try done.
  - intros i ni. rewrite lookup_empty. split; [done|]. by intros [?%elem_of_nil _].
Qed.

Lemma walk_inv_statement c envname s st :
  walk_inv st → walk_inv (visit_statement c envname s st).
Proof.
  intros [Hn Hp Hi Hl Hlast Hfb]. unfold visit_statement.
  set (ni := mkNodeInfo c envname _ (order_counter st)).
  rewrite Forall_forall in Hn.
  split; simpl.
  - apply Forall_app. split.
    + apply Forall_forall. intros n Hin. apply Hn in Hin. lia.
    + constructor; [simpl; lia | constructor].
  - eapply Forall_impl; [exact Hp|]. simpl. lia.
  - intros i n. destruct (decide (order_counter st = i)) as [<-|Hne].
    + rewrite lookup_insert_eq. split.
      * intros [= <-]. split; [|done]. apply elem_of_app. right. by apply list_elem_of_singleton.
      * intros [[Hin| ->%list_elem_of_singleton]%elem_of_app Hidx]; [|done].
        apply Hn in Hin. lia.
    + rewrite lookup_insert_ne by done. rewrite Hi. split.
      * intros [Hin Hidx]. split; [|done]. apply elem_of_app. by left.
      * intros [[Hin| ->%list_elem_of_singleton]%elem_of_app Hidx]; [done|].
        simpl in Hidx. lia.
  - intros l n. destruct (truthy (search LABEL_RX s)) as [l0|].
    + destruct (decide (l0 = l)) as [->|Hne].
      * rewrite lookup_insert_eq. intros [= <-].
        apply elem_of_app. right. by apply list_elem_of_singleton.
      * rewrite lookup_insert_ne by done. intros Hin%Hl. apply elem_of_app. by left.
    + intros Hin%Hl. apply elem_of_app. by left.
  - by rewrite last_snoc.
  - rewrite Forall_forall in Hp, Hfb. apply Forall_forall. intros p Hin.
    rewrite last_statement_before_snoc; [by apply Hfb|].
    apply Hp in Hin. simpl. lia.
Qed.

Lemma walk_inv_proof s st : walk_inv st → walk_inv (visit_proof s st).
Proof.
  intros [Hn Hp Hi Hl Hlast Hfb]. unfold visit_proof.
  split; simpl; try done.
  - eapply Forall_impl; [exact Hn|]. simpl. lia.
  - apply Forall_app. split.
    + eapply Forall_impl; [exact Hp|]. simpl. lia.
    + constructor; [simpl; lia | constructor].
  - apply Forall_app. split; [done|]. constructor; [|constructor]. simpl.
    rewrite Hlast. unfold last_statement_before. by rewrite filter_all.
Qed.

Lemma walk_inv_visit sel envname s st :
  walk_inv st → walk_inv (visit sel envname s st).
Proof.
  intros Hinv. rewrite visit_classify. destruct (classify sel envname);
    auto using walk_inv_statement, walk_inv_proof.
Qed.

Lemma walk_inv_run sel bs : walk_inv (run sel bs init_state).
Proof.
  apply (run_invariant walk_inv); [apply walk_inv_init|].
  intros st envname s. apply walk_inv_visit.
Qed.

(* ===================================================================== *)
(** ** Ordinals *)
(* ===================================================================== *)

Lemma elem_of_positions {A} (f : A → bool) start l i :
  i ∈ positions f start l ↔
  start ≤ i ∧ ∃ x, l !! (i - start) = Some x ∧ f x = true.
Proof.
  revert start. induction l as [|x l IH]; intros start; simpl.
  - split; [by intros ?%elem_of_nil | by intros (_ & y & ? & _)].
  - assert (i ∈ positions f (S start) l ↔
            start < i ∧ ∃ y, (x :: l) !! (i - start) = Some y ∧ f y = true) as Htl.
    { rewrite IH. split.
      - intros (Hle & y & Hy & Hf). split; [lia|]. exists y. split; [|done].
        replace (i - start) with (S (i - S start)) by lia. done.
      - intros (Hlt & y & Hy & Hf). split; [lia|]. exists y. split; [|done].
        replace (i - start) with (S (i - S start)) in Hy by lia. done. }
    destruct (f x) eqn:Ef.
    + rewrite elem_of_cons, Htl. split.
      * intros [->|(Hlt & Hy)]; [|split; [lia|done]].
        split; [lia|]. exists x. by rewrite Nat.sub_diag.
      * intros (Hle & y & Hy & Hf).
        destruct (decide (i = start)) as [->|Hne]; [by left|].
        right. split; [lia|]. by exists y.
    + rewrite Htl. split.
      * intros (Hlt & Hy). split; [lia|done].
      * intros (Hle & y & Hy & Hf). split; [|by exists y].
        destruct (decide (i = start)) as [->|Hne]; [|lia].
        rewrite Nat.sub_diag in Hy. simpl in Hy. congruence.
Qed.

Lemma positions_all {A} (f : A → bool) start l :
  Forall (λ x, f x = true) l → positions f start l = seq start (length l).
Proof.
  intros Hall. revert start. induction Hall as [|x l Hx _ IH]; intros start; [done|].
  simpl. by rewrite Hx, IH.
Qed.

Lemma resolve_proof_index ltn p : p_index (resolve_proof ltn p) = p_index p.
Proof. unfold resolve_proof. by repeat case_match. Qed.

Lemma resolve_proof_label ltn p :
  p_target_label (resolve_proof ltn p) = p_target_label p.
Proof. unfold resolve_proof. by repeat case_match. Qed.

Lemma resolve_proof_uses ltn p : p_uses (resolve_proof ltn p) = p_uses p.
Proof. unfold resolve_proof. by repeat case_match. Qed.

Lemma parse_nodes nodelist sel :
  r_nodes (parse_latex_structure nodelist sel) =
  (recorded sel (blocks_of_all nodelist) 0).*1.
Proof.
  unfold parse_latex_structure. simpl. by rewrite walk_all_run, run_nodes.
Qed.

Lemma parse_node_indices nodelist sel :
  index <$> r_nodes (parse_latex_structure nodelist sel) =
  positions is_statement 0 (recognized sel nodelist).
Proof. rewrite parse_nodes. apply recorded_indices. Qed.

Lemma parse_proof_indices nodelist sel :
  p_index <$> r_proofs (parse_latex_structure nodelist sel) =
  positions is_proof 0 (recognized sel nodelist).
Proof.
  unfold parse_latex_structure. simpl. rewrite walk_all_run.
  rewrite <- list_fmap_compose.
  erewrite list_fmap_ext; [by rewrite run_proof_indices|].
  intros i p _. apply resolve_proof_index.
Qed.

Lemma parse_label_to_node nodelist sel l :
  r_label_to_node (parse_latex_structure nodelist sel) !! l =
  last_declaring l (recorded sel (blocks_of_all nodelist) 0).
Proof.
  unfold parse_latex_structure. simpl. rewrite walk_all_run, run_label_to_node.
  simpl. by destruct (last_declaring _ _).
Qed.

(** [C4] The ordinal of a recognized block is its position among the
    recognized blocks, statement and proof blocks together, listed in
    pre-order: the statement nodes carry the positions of the statement
    blocks and the proofs those of the proof blocks.  So the ordinals
    increase strictly along the traversal, every position below the number
    of recognized blocks is the ordinal of one block, and none is given
    twice. *)
Theorem ordinals_follow_traversal_order nodelist sel :
  let r := parse_latex_structure nodelist sel in
  let ks := recognized sel nodelist in
  index <$> r_nodes r = positions is_statement 0 ks ∧
  p_index <$> r_proofs r = positions is_proof 0 ks ∧
  StronglySorted lt (index <$> r_nodes r) ∧
  StronglySorted lt (p_index <$> r_proofs r) ∧
  NoDup ((index <$> r_nodes r) ++ (p_index <$> r_proofs r)) ∧
  ∀ i, i ∈ (index <$> r_nodes r) ++ (p_index <$> r_proofs r) ↔ i < length ks.
Proof.
  intros r ks. subst r ks.
  rewrite parse_node_indices, parse_proof_indices.
  split_and!; try done; try apply positions_sorted.
  - apply NoDup_app. split_and!.
    + apply StronglySorted_lt_NoDup, positions_sorted.
    + intros i Hs Hp. eapply (positions_disjoint is_statement is_proof); [|done..].
      by intros [].
    + apply StronglySorted_lt_NoDup, positions_sorted.
  - intros i. rewrite elem_of_app, !elem_of_positions. split.
    + intros [(_ & k & Hk & _)|(_ & k & Hk & _)];
        apply lookup_lt_Some in Hk; lia.
    + intros Hlt. rewrite Nat.sub_0_r.
      destruct (lookup_lt_is_Some_2 _ _ Hlt) as [k Hk].
      assert (is_recognized k = true) as Hrec.
      { apply list_elem_of_lookup_2 in Hk. unfold recognized in Hk.
        by apply list_elem_of_filter in Hk as [? _]. }
      destruct k; [left | right | done]; (split; [lia|]); eauto.
Qed.

(* ===================================================================== *)
(** ** The assembled graph stays within the recorded nodes *)
(* ===================================================================== *)

Lemma update_edge_elem u v style es a b st :
  (a, b, st) ∈ update_edge u v style es →
  (a = u ∧ b = v) ∨ ∃ st', (a, b, st') ∈ es.
Proof.
  induction es as [|[[u' v'] st'] es IH]; simpl.
  - intros [= -> -> ->]%list_elem_of_singleton. by left.
  - destruct (decide (u' = u ∧ v' = v)) as [[-> ->]|Hne].
    + intros [[= -> -> ->]|Hin]%elem_of_cons; [by left|].
      right. exists st. by right.
    + intros [[= -> -> ->]|Hin]%elem_of_cons.
      * right. exists st'. by left.
      * destruct (IH Hin) as [?|[st'' Hin']]; [by left|].
        right. exists st''. by right.
Qed.

Lemma graph_within_empty L : graph_within L empty_graph.
Proof. split; [intros n|intros u v style]; by intros ?%elem_of_nil. Qed.

Lemma graph_within_add_node L G n :
  n ∈ L → graph_within L G → graph_within L (add_node G n).
Proof.
  intros Hn [Hnodes Hedges]. unfold add_node. case_bool_decide; [done|].
  split; [|done]. simpl. intros m [Hm| ->%list_elem_of_singleton]%elem_of_app; auto.
Qed.

Lemma graph_within_add_edge L G u v style :
  u ∈ L → v ∈ L → graph_within L G → graph_within L (add_edge G u v style).
Proof.
  intros Hu Hv HG. unfold add_edge.
  pose proof (graph_within_add_node L _ v Hv (graph_within_add_node L G u Hu HG))
    as [Hnodes Hedges].
  split; [done|]. simpl. intros a b st Hin.
  apply update_edge_elem in Hin as [[-> ->]|[st' Hin]]; [done|].
  by eapply Hedges.
Qed.

Lemma graph_within_add_uses_edges L (ltn : gmap string NodeInfo) tgt style G labels :
  (∀ l ni, ltn !! l = Some ni → label ni ∈ L) → tgt ∈ L →
  graph_within L G → graph_within L (add_uses_edges ltn tgt style G labels).
Proof.
  intros Hltn Htgt. unfold add_uses_edges. revert G.
  induction labels as [|lbl labels IH]; intros G HG; simpl; [done|].
  apply IH. destruct (ltn !! lbl) as [src|] eqn:E; [|done].
  apply graph_within_add_edge; eauto.
Qed.

Lemma graph_within_build r :
  (∀ i ni, r_node_by_index r !! i = Some ni → ni ∈ r_nodes r) →
  (∀ l ni, r_label_to_node r !! l = Some ni → ni ∈ r_nodes r) →
  graph_within (label <$> r_nodes r) (build_graph r).
Proof.
  intros Hi Hl. unfold build_graph.
  assert (∀ ni, ni ∈ r_nodes r → label ni ∈ label <$> r_nodes r) as Hlab.
  { intros ni. apply list_elem_of_fmap_2. }
  assert (∀ l ni, r_label_to_node r !! l = Some ni → label ni ∈ label <$> r_nodes r)
    as Hl' by eauto.
  assert (∀ ns G, (∀ ni, ni ∈ ns → ni ∈ r_nodes r) →
            graph_within (label <$> r_nodes r) G →
            graph_within (label <$> r_nodes r) (foldl (λ G ni, add_node G (label ni)) G ns))
    as Hnodes.
  { induction ns as [|ni ns IH]; intros G Hsub HG; simpl; [done|].
    apply IH; [intros n Hn; apply Hsub; by right|].
    apply graph_within_add_node; [|done]. apply Hlab, Hsub. by left. }
  assert (∀ us G, graph_within (label <$> r_nodes r) G →
            graph_within (label <$> r_nodes r)
              (foldl (statement_edges (r_node_by_index r) (r_label_to_node r)) G us))
    as Huses.
  { induction us as [|[idx labels] us IH]; intros G HG; simpl; [done|].
    apply IH. unfold statement_edges. simpl.
    destruct (r_node_by_index r !! idx) as [tn|] eqn:E; [|done].
    apply graph_within_add_uses_edges; eauto. }
  assert (∀ ps G, graph_within (label <$> r_nodes r) G →
            graph_within (label <$> r_nodes r)
              (foldl (proof_edges (r_node_by_index r) (r_label_to_node r)) G ps))
    as Hproofs.
  { induction ps as [|p ps IH]; intros G HG; simpl; [done|].
    apply IH. unfold proof_edges.
    destruct (p_target_node_idx p) as [tgt|]; [|done].
    destruct (r_node_by_index r !! tgt) as [tn|] eqn:E; [|done].
    apply graph_within_add_uses_edges; eauto. }
  apply Hproofs, Huses, Hnodes; [done|apply graph_within_empty].
Qed.

Lemma parse_tables_within nodelist sel :
  let r := parse_latex_structure nodelist sel in
  (∀ i ni, r_node_by_index r !! i = Some ni → ni ∈ r_nodes r) ∧
  (∀ l ni, r_label_to_node r !! l = Some ni → ni ∈ r_nodes r).
Proof.
  unfold parse_latex_structure. simpl. rewrite walk_all_run.
  destruct (walk_inv_run sel (blocks_of_all nodelist)) as [_ _ Hi Hl _ _].
  split; [|done]. intros i ni Hlook. by apply Hi in Hlook as [? _].
Qed.

(** [C6] A label that is the label of no recorded statement node is no
    node of the assembled graph and no end point of any of its edges,
    whatever [\uses] and [\proves] directives mention it; the assembler is
    a total function, so nothing is raised on the way. *)
Theorem unknown_label_touches_no_edge nodelist sel (l : string) :
  let r := parse_latex_structure nodelist sel in
  l ∉ (label <$> r_nodes r) →
  (l ∉ g_nodes (build_graph r)) ∧
  ∀ u v style, (u, v, style) ∈ g_edges (build_graph r) → u ≠ l ∧ v ≠ l.
Proof.
  intros r Hl.
  destruct (parse_tables_within nodelist sel) as [Hi Hlt].
  destruct (graph_within_build r Hi Hlt) as [Hnodes Hedges].
  split; [by intros ?%Hnodes|].
  intros u v style [Hu Hv]%Hedges. split; by intros ->.
Qed.

(* ===================================================================== *)
(** ** No category selected *)
(* ===================================================================== *)

Lemma classify_nil_not_statement envname : is_statement (classify [] envname) = false.
Proof.
  unfold classify. destruct (canonical_of_env envname); by repeat case_match.
Qed.

Lemma recorded_nil_sel bs c : recorded [] bs c = [].
Proof.
  revert c. induction bs as [|[envname s] bs IH]; intros c; [done|].
  simpl. pose proof (classify_nil_not_statement envname).
  destruct (classify [] envname); try done; apply IH.
Qed.

Lemma recognized_nil_sel_proofs nodelist :
  Forall (λ k, is_proof k = true) (recognized [] nodelist).
Proof.
  apply Forall_forall. intros k Hk. unfold recognized in Hk.
  apply list_elem_of_filter in Hk as [Hrec Hin].
  apply list_elem_of_fmap in Hin as ([envname s] & -> & _). simpl in *.
  pose proof (classify_nil_not_statement envname).
  by destruct (classify [] envname).
Qed.

Lemma walk_nothing_selected bs :
  let st := run [] bs init_state in
  uses_on_node st = [] ∧ label_to_node st = ∅ ∧
  Forall (λ p, p_target_node_idx p = None) (proofs st) ∧ last_stmt_idx st = None.
Proof.
  apply (run_invariant (λ st, uses_on_node st = [] ∧ label_to_node st = ∅ ∧
           Forall (λ p, p_target_node_idx p = None) (proofs st) ∧
           last_stmt_idx st = None)); [done|].
  intros st envname s (Hu & Hl & Hp & Hlast). rewrite visit_classify.
  pose proof (classify_nil_not_statement envname).
  destruct (classify [] envname); [done| |done]. simpl.
  split_and!; try done. apply Forall_app. split; [done|]. by repeat constructor.
Qed.

Lemma resolve_proof_empty p : resolve_proof ∅ p = p.
Proof. unfold resolve_proof. destruct (truthy _); by rewrite ?lookup_empty. Qed.

Lemma proof_edges_no_target nbi ltn G p :
  p_target_node_idx p = None → proof_edges nbi ltn G p = G.
Proof. unfold proof_edges. by intros ->. Qed.

(** [C7] With no category selected the parse has no statement node, and
    the graph assembled from it has no node and no edge, whatever the
    document; the proof blocks are still recorded and numbered from 0 in
    traversal order. *)
Theorem nothing_selected_empty_graph nodelist :
  let r := parse_latex_structure nodelist [] in
  r_nodes r = [] ∧
  build_graph r = empty_graph ∧
  g_nodes (build_graph r) = [] ∧ g_edges (build_graph r) = [] ∧
  p_index <$> r_proofs r = seq 0 (length (recognized [] nodelist)).
Proof.
  intros r.
  assert (r_nodes r = []) as Hnodes.
  { subst r. by rewrite parse_nodes, recorded_nil_sel. }
  assert (build_graph r = empty_graph) as HG.
  { unfold build_graph. rewrite Hnodes. subst r. unfold parse_latex_structure.
    simpl. rewrite walk_all_run.
    destruct (walk_nothing_selected (blocks_of_all nodelist)) as (-> & -> & Hp & _).
    simpl. induction Hp as [|p ps Hp _ IH]; [done|]. simpl.
    by rewrite resolve_proof_empty, proof_edges_no_target. }
  split_and!; [done|done|by rewrite HG..|].
  subst r. rewrite parse_proof_indices.
  apply positions_all, recognized_nil_sel_proofs.
Qed.

(* ===================================================================== *)
(** ** Proof targets *)
(* ===================================================================== *)

Lemma parse_proof_fallback nodelist sel p :
  let r := parse_latex_structure nodelist sel in
  p ∈ r_proofs r →
  ∃ p0, p = resolve_proof (r_label_to_node r) p0 ∧
        p_target_node_idx p0 = last_statement_before (p_index p0) (r_nodes r).
Proof.
  unfold parse_latex_structure. simpl. rewrite walk_all_run.
  destruct (walk_inv_run sel (blocks_of_all nodelist)) as [_ _ _ _ _ Hfb].
  intros (p0 & -> & Hin)%list_elem_of_fmap. exists p0. split; [done|].
  rewrite Forall_forall in Hfb. by apply Hfb.
Qed.

(** [C3] as the code has it.  The target of a proof is the ordinal of the
    last statement node, in traversal order, whose block declares the
    label that [\proves] names, when the proof names one and a block
    declares it; the look-up table holds the declared labels only, so in
    every other case (no [\proves], or a label that no block declares, a
    synthetic label among them) the target is the ordinal of the last
    statement node recorded before the proof, if there is one.  A proof
    without a target adds no edge. *)
Theorem proof_target_resolution nodelist sel p :
  let r := parse_latex_structure nodelist sel in
  let rec := recorded sel (blocks_of_all nodelist) 0 in
  p ∈ r_proofs r →
  p_target_node_idx p =
    match truthy (p_target_label p) ≫= (λ l, last_declaring l rec) with
    | Some ni => Some (index ni)
    | None => last_statement_before (p_index p) (r_nodes r)
    end ∧
  (∀ l, r_label_to_node r !! l = last_declaring l rec) ∧
  (p_target_node_idx p = None →
   ∀ G, proof_edges (r_node_by_index r) (r_label_to_node r) G p = G).
Proof.
  intros r rec Hin.
  destruct (parse_proof_fallback nodelist sel p Hin) as (p0 & Hp & Hfb).
  fold r in Hp, Hfb.
  assert (∀ l, r_label_to_node r !! l = last_declaring l rec) as Hltn.
  { intros l. apply parse_label_to_node. }
  split_and!; [|done|intros Hnone G; by apply proof_edges_no_target].
  clearbody r rec. rewrite Hp, resolve_proof_label, resolve_proof_index.
  unfold resolve_proof.
  destruct (truthy (p_target_label p0)) as [l|]; [|done].
  cbn [mbind option_bind]. rewrite <- Hltn.
  by destruct (r_label_to_node r !! l).
Qed.

Lemma proof_target_resolution_witness :
  let r := parse_latex_structure (nodes_of doc_scenario1) CANONICAL_ORDER in
  let p := mkProofInfo 2 (Some "T1") ["D1"] (Some 1) in
  p ∈ r_proofs r ∧ p_target_node_idx p = Some 1.
Proof.
  intros r p.
  assert (p ∈ r_proofs r) as Hin by (vm_compute; apply list_elem_of_here).
  split; [exact Hin|].
  destruct (proof_target_resolution (nodes_of doc_scenario1) CANONICAL_ORDER p Hin)
    as (Htarget & _ & _).
  exact Htarget.
Defined.

(** [C3] as the specification words it fails: in [doc_proves_synthetic]
    the proof names the label of a recorded statement node, the synthetic
    label of the unlabelled theorem, and yet keeps the traversal-order
    target, the lemma. *)
Lemma proves_synthetic_label_not_resolved :
  let r := parse_latex_structure (nodes_of doc_proves_synthetic) CANONICAL_ORDER in
  ¬ (∀ p ni, p ∈ r_proofs r → ni ∈ r_nodes r →
       p_target_label p = Some (label ni) →
       p_target_node_idx p = Some (index ni)).
Proof.
  intros r Hclaim.
  specialize (Hclaim (mkProofInfo 2 (Some "theorem:0") ["L"] (Some 1))
                     (mkNodeInfo theorem "theorem" "theorem:0" 0)).
  assert (Some 1 = Some 0) as Habs; [|discriminate Habs].
  apply Hclaim; [vm_compute; apply list_elem_of_here.. | done].
Qed.

(* ===================================================================== *)
(** ** Declared and synthetic labels *)
(* ===================================================================== *)






(* ===================================================================== *)
(** ** Synthetic labels are pairwise distinct *)
(* ===================================================================== *)

Lemma app_String c s t : String c s +:+ t = String c (s +:+ t).
Proof. done. Qed.

Lemma app_empty_l t : "" +:+ t = t.
Proof. done. Qed.

Lemma to_lower_colon c : to_lower c = ":"%char ↔ c = ":"%char.
Proof.
  destruct c as [[] [] [] [] [] [] [] []]; vm_compute; split; congruence.
Qed.

Lemma contains_colon_lower s : contains ":" (string_lower s) = contains ":" s.
Proof.
  induction s as [|c s IH]; [done|]. simpl. rewrite IH. f_equal.
  apply bool_decide_ext, to_lower_colon.
Qed.

Lemma first_alias_no_colon tbl envname c :
  Forall (λ e, Forall (λ a, contains ":" a = false) e.2) tbl →
  first_alias tbl envname = Some c → contains ":" envname = false.
Proof.
  induction 1 as [|[k alts] tbl Halts _ IH]; simpl; [done|].
  destruct (fullmatch_alias alts envname) eqn:E; [intros _|done].
  unfold fullmatch_alias in E. apply bool_decide_eq_true in E.
  rewrite Forall_forall in Halts. apply Halts in E.
  by rewrite contains_colon_lower in E.
Qed.

Lemma canonical_no_colon envname c :
  canonical_of_env envname = Some c → contains ":" envname = false.
Proof.
  apply first_alias_no_colon. unfold ALIASES.
  repeat (constructor; [by repeat constructor|]). constructor.
Qed.

Lemma classify_statement sel envname k :
  classify sel envname = StatementBlock k → canonical_of_env envname = Some k.
Proof.
  unfold classify. destruct (canonical_of_env envname); repeat case_match; congruence.
Qed.

(** A name without a colon, a colon, a number: the parts are determined. *)
Lemma colon_split_inj e1 e2 p1 p2 :
  contains ":" e1 = false → contains ":" e2 = false →
  e1 +:+ ":" +:+ p1 = e2 +:+ ":" +:+ p2 → e1 = e2 ∧ p1 = p2.
Proof.
  revert e2. induction e1 as [|c e1 IH]; intros [|d e2]; simpl;
    rewrite ?app_String, ?app_empty_l.
  - intros _ _ [= ->]. done.
  - intros _ [Hd _]%orb_false_elim [= <- _]. by apply bool_decide_eq_false in Hd.
  - intros [Hc _]%orb_false_elim _ [= -> _]. by apply bool_decide_eq_false in Hc.
  - intros [_ H1]%orb_false_elim [_ H2]%orb_false_elim [= -> Heq].
    destruct (IH e2 H1 H2 Heq) as [-> ->]. done.
Qed.

Lemma recorded_lookup sel bs c i ni o :
  recorded sel bs c !! i = Some (ni, o) →
  c + i ≤ index ni ∧
  is_Some (canonical_of_env (env ni)) ∧
  (o = None → label ni = env ni +:+ ":" +:+ pretty (index ni)).
Proof.
  revert c i. induction bs as [|[envname s] bs IH]; intros c i; [done|].
  simpl. destruct (classify sel envname) as [k| |] eqn:Ek.
  - destruct i as [|i]; simpl.
    + intros [= <- <-]. simpl. split_and!; [lia| |].
      * rewrite (classify_statement _ _ _ Ek). eauto.
      * unfold label_for. by intros ->.
    + intros Hi. destruct (IH _ _ Hi) as (Hle & ? & ?). split_and!; [lia|done..].
  - intros Hi. destruct (IH _ _ Hi) as (Hle & ? & ?). split_and!; [lia|done..].
  - apply IH.
Qed.

Lemma recorded_index_increasing sel bs c i j x y :
  i < j → recorded sel bs c !! i = Some x → recorded sel bs c !! j = Some y →
  index x.1 < index y.1.
Proof.
  revert c i j. induction bs as [|[envname s] bs IH]; intros c i j Hlt; [done|].
  simpl. destruct (classify sel envname) as [k| |]; [|by apply IH..].
  destruct j as [|j]; [lia|]. destruct i as [|i]; simpl.
  - intros [= <-] Hj. destruct y as [nj oj].
    apply recorded_lookup in Hj as (Hle & _). simpl in *. lia.
  - apply IH. lia.
Qed.

(** [C2] as the code has it.  Two statement blocks whose text declares no
    label get different labels: each is named after its block and its
    ordinal, and the ordinals differ.  (A block whose text declares a label
    is named by that text, whatever the other blocks declare.) *)
Theorem synthetic_labels_distinct nodelist sel i j ni nj :
  let r := parse_latex_structure nodelist sel in
  let rec := recorded sel (blocks_of_all nodelist) 0 in
  i ≠ j →
  rec !! i = Some (ni, None) →
  rec !! j = Some (nj, None) →
  r_nodes r !! i = Some ni ∧ r_nodes r !! j = Some nj ∧
  label ni = env ni +:+ ":" +:+ pretty (index ni) ∧
  label nj = env nj +:+ ":" +:+ pretty (index nj) ∧
  index ni ≠ index nj ∧
  label ni ≠ label nj.
Proof.
  intros r rec Hij Hi Hj.
  assert (index ni ≠ index nj) as Hidx.
  { destruct (decide (i < j)).
    - pose proof (recorded_index_increasing _ _ _ i j _ _ ltac:(done) Hi Hj).
      simpl in *. lia.
    - pose proof (recorded_index_increasing _ _ _ j i _ _ ltac:(lia) Hj Hi).
      simpl in *. lia. }
  destruct (recorded_lookup _ _ _ _ _ _ Hi) as (_ & [ci Hci] & Hli).
  destruct (recorded_lookup _ _ _ _ _ _ Hj) as (_ & [cj Hcj] & Hlj).
  specialize (Hli eq_refl). specialize (Hlj eq_refl).
  split_and!; try done.
  - subst r. rewrite parse_nodes, list_lookup_fmap. fold rec. by rewrite Hi.
  - subst r. rewrite parse_nodes, list_lookup_fmap. fold rec. by rewrite Hj.
  - rewrite Hli, Hlj. intros Heq.
    apply colon_split_inj in Heq as [_ Heq]; eauto using canonical_no_colon.
    by apply (inj pretty) in Heq.
Qed.

Lemma synthetic_labels_distinct_witness :
  let r := parse_latex_structure (nodes_of doc_unlabelled) CANONICAL_ORDER in
  r_nodes r !! 0 = Some (mkNodeInfo lemma "lemma" "lemma:0" 0) ∧
  r_nodes r !! 1 = Some (mkNodeInfo lemma "lemma" "lemma:1" 1) ∧
  "lemma:0" ≠ "lemma:1".
Proof.
  intros r.
  destruct (synthetic_labels_distinct (nodes_of doc_unlabelled) CANONICAL_ORDER 0 1
              (mkNodeInfo lemma "lemma" "lemma:0" 0)
              (mkNodeInfo lemma "lemma" "lemma:1" 1))
    as (H0 & H1 & _ & _ & _ & Hne); [lia | vm_compute; reflexivity.. |].
  split_and!; [exact H0 | exact H1 | exact Hne].
Defined.

(** [C2] as the specification words it fails: the two statement nodes of
    [doc_same_label] carry the same label. *)
Lemma labels_not_always_distinct :
  ¬ NoDup (label <$> r_nodes (parse_latex_structure (nodes_of doc_same_label)
                                                    CANONICAL_ORDER)).
Proof.
  replace (label <$> r_nodes _) with ["X"; "X"] by (by vm_compute).
  intros Hnd. apply NoDup_cons in Hnd as [Hnotin _]. apply Hnotin. by left.
Qed.

(* ===================================================================== *)
(** ** End to end *)
(* ===================================================================== *)

(** [C1] The document [doc_scenario1], a definition labelled D1, then a
    theorem labelled T1, then a proof with [\proves{T1}] and [\uses{D1}],
    parsed with every category selected and assembled: two statement
    nodes, D1 and T1, which are the two nodes of the graph, and one edge,
    from D1 to T1. *)
Theorem scenario1_two_nodes_one_edge :
  render_all doc_scenario1 =
    "\begin{definition}\label{D1}\end{definition}" +:+
    "\begin{theorem}\label{T1}\end{theorem}" +:+
    "\begin{proof}\proves{T1}\uses{D1}\end{proof}" ∧
  label <$> r_nodes (parse_latex_structure (nodes_of doc_scenario1) CANONICAL_ORDER)
    = ["D1"; "T1"] ∧
  pipeline (nodes_of doc_scenario1) CANONICAL_ORDER
    = mkAGraph ["D1"; "T1"] [("D1", "T1", None)].
Proof. split_and!; by vm_compute. Qed.

Lemma unknown_label_touches_no_edge_witness :
  let r := parse_latex_structure (nodes_of doc_dangling) CANONICAL_ORDER in
  ("nowhere" ∉ g_nodes (build_graph r)) ∧
  ∀ u v style, (u, v, style) ∈ g_edges (build_graph r) → u ≠ "nowhere" ∧ v ≠ "nowhere".
Proof.
  intros r.
  apply (unknown_label_touches_no_edge (nodes_of doc_dangling) CANONICAL_ORDER "nowhere").
  replace (label <$> r_nodes _) with ["T1"] by (by vm_compute).
  by intros [=]%list_elem_of_singleton.
Defined.

(* ===================================================================== *)
(** ** Scanning texts without directives *)
(* ===================================================================== *)

Lemma app_assoc_s x y z : (x +:+ y) +:+ z = x +:+ y +:+ z.
Proof. induction x as [|c x IH]; [done|]. by rewrite !app_String, IH. Qed.

Lemma app_empty_r x : x +:+ "" = x.
Proof. induction x as [|c x IH]; [done|]. by rewrite app_String, IH. Qed.

Lemma length_app_s x y : String.length (x +:+ y) = String.length x + String.length y.
Proof. induction x as [|c x IH]; [done|]. rewrite app_String. simpl. by rewrite IH. Qed.

Lemma contains_app c x y : contains c (x +:+ y) = contains c x || contains c y.
Proof.
  induction x as [|d x IH]; [done|]. rewrite app_String. simpl.
  by rewrite IH, orb_assoc.
Qed.

Lemma scan_go_no_match {G} (m : matcher G) s : no_match m s → scan_go m 0 s = lits s.
Proof.
  induction s as [|c s IH]; [done|]. intros [Hm Hs]. simpl in *.
  by rewrite Hm, IH.
Qed.

Lemma no_match_plain {G} (m : matcher G) s :
  needs_backslash m → contains "\" s = false → no_match m s.
Proof.
  intros Hm. induction s as [|c s IH]; [done|]. simpl.
  intros [Hc Hs]%orb_false_elim. apply bool_decide_eq_false in Hc.
  split; [by apply Hm | by apply IH].
Qed.

Lemma no_match_app {G} (m : matcher G) a rest :
  needs_backslash m → contains "\" a = false → no_match m rest →
  no_match m (a +:+ rest).
Proof.
  intros Hm. induction a as [|c a IH]; [done|]. rewrite app_String. simpl.
  intros [Hc Ha]%orb_false_elim Hrest. apply bool_decide_eq_false in Hc.
  split; [by apply Hm | by apply IH].
Qed.

Lemma scan_go_plain_prefix {G} (m : matcher G) a rest :
  needs_backslash m → contains "\" a = false →
  scan_go m 0 (a +:+ rest) = lits a ++ scan_go m 0 rest.
Proof.
  intros Hm. induction a as [|c a IH]; [done|]. rewrite app_String. simpl.
  intros [Hc Ha]%orb_false_elim. apply bool_decide_eq_false in Hc.
  by rewrite Hm, IH.
Qed.

Lemma scan_go_hit {G} (m : matcher G) c s' g rest :
  m (String c s') = Some (g, rest) →
  scan_go m 0 (String c s') =
  Hit g :: scan_go m (String.length s' - String.length rest) s'.
Proof. intros Hm. simpl. by rewrite Hm. Qed.

Lemma scan_go_skip {G} (m : matcher G) x y :
  scan_go m (String.length x) (x +:+ y) = scan_go m 0 y.
Proof. induction x as [|c x IH]; [done|]. rewrite app_String. simpl. exact IH. Qed.

Lemma sub_pieces_lits {G} (repl : G → string) s : sub_pieces repl (lits s) = s.
Proof. induction s as [|c s IH]; [done|]. simpl. by rewrite IH. Qed.

(** The state monad of the resolver. *)
Lemma bind_Done {A B} (f : A → result B) (m : result A) b :
  m ≫= f = Done b ↔ ∃ a, m = Done a ∧ f a = Done b.
Proof. destruct m; simpl; naive_solver. Qed.

Lemma sub_pieces_st_lits {G}
    (repl : G → gset string → result (string * gset string)) s ps st :
  sub_pieces_st repl (lits s ++ ps) st =
  '(t, st') ← sub_pieces_st repl ps st; Done (s +:+ t, st').
Proof.
  induction s as [|c s IH]; simpl.
  - by destruct (sub_pieces_st repl ps st) as [[? ?]| |].
  - rewrite IH. by destruct (sub_pieces_st repl ps st) as [[? ?]| |].
Qed.

Lemma sub_st_no_match {G} (m : matcher G)
    (repl : G → gset string → result (string * gset string)) text st :
  no_match m text → sub_st m repl text st = Done (text, st).
Proof.
  intros Hno. unfold sub_st, scan. rewrite scan_go_no_match by done.
  rewrite <- (app_nil_r (lits text)), sub_pieces_st_lits. simpl.
  by rewrite app_empty_r.
Qed.

(** One pass over a text in which its pattern matches once. *)
Lemma sub_st_sole_hit {G} (m : matcher G)
    (repl : G → gset string → result (string * gset string)) text a1 g a2 st :
  sole_hit m text a1 g a2 →
  sub_st m repl text st = '(r, st1) ← repl g st; Done (a1 +:+ r +:+ a2, st1).
Proof.
  intros Hhit. unfold sub_st. rewrite Hhit, sub_pieces_st_lits.
  cbn [sub_pieces_st]. destruct (repl g st) as [[r st1]| |]; [|done..].
  cbn [mbind result_bind].
  rewrite <- (app_nil_r (lits a2)), sub_pieces_st_lits.
  cbn [sub_pieces_st mbind result_bind]. by rewrite app_empty_r.
Qed.

Lemma strip_comments_no_percent text :
  contains "%" text = false → strip_comments text = text.
Proof.
  intros Hno.
  assert (no_match COMMENT_RX text) as Hnm.
  { clear -Hno. induction text as [|c text IH]; [done|]. simpl in Hno.
    apply orb_false_elim in Hno as [_ Hno]. split; [|by apply IH].
    destruct text as [|d text]; [done|]. simpl in Hno.
    apply orb_false_elim in Hno as [Hd _]. apply bool_decide_eq_false in Hd.
    unfold COMMENT_RX.
    destruct d as [[] [] [] [] [] [] [] []]; try done. }
  assert (re_sub COMMENT_RX id text = text) as Hsub.
  { unfold re_sub, scan. by rewrite scan_go_no_match, sub_pieces_lits. }
  unfold strip_comments. destruct text as [|c text]; [done|].
  simpl in Hno. apply orb_false_elim in Hno as [Hc _].
  apply bool_decide_eq_false in Hc.
  destruct c as [[] [] [] [] [] [] [] []]; try done.
Qed.

Lemma until_rbrace_app g rest :
  contains "}" g = false → until_rbrace (g +:+ "}" +:+ rest) = Some (g, rest).
Proof.
  induction g as [|c g IH]; [done|]. rewrite app_String. simpl.
  intros [Hc Hg]%orb_false_elim. apply bool_decide_eq_false in Hc.
  by rewrite decide_False, IH.
Qed.

Lemma needs_backslash_directive1 name :
  needs_backslash (directive1 (String "\" name)).
Proof. intros c s Hc. unfold directive1. simpl. by rewrite decide_False. Qed.

Lemma needs_backslash_directive2 name :
  needs_backslash (directive2 (String "\" name)).
Proof. intros c s Hc. unfold directive2. simpl. by rewrite decide_False. Qed.

Lemma needs_backslash_spaceform : needs_backslash INPUT_SPACEFORM_RX.
Proof. intros c s Hc. unfold INPUT_SPACEFORM_RX. simpl. by rewrite decide_False. Qed.

Lemma is_plain_spec s :
  is_plain s = true ↔ contains "\" s = false ∧ contains "%" s = false.
Proof.
  unfold is_plain. rewrite andb_true_iff, !negb_true_iff. done.
Qed.

Lemma is_target_spec rel :
  is_target rel = true ↔
  is_plain rel = true ∧ contains "}" rel = false ∧ rel ≠ "".
Proof.
  unfold is_target. rewrite !andb_true_iff, !negb_true_iff, bool_decide_eq_false.
  naive_solver.
Qed.

(** The braced [\input] pattern matches at the directive. *)
Lemma input_braced_at_directive rel rest :
  is_target rel = true →
  INPUT_BRACED_RX (input_directive rel +:+ rest) = Some (rel, rest).
Proof.
  intros (_ & Hbrace & Hne)%is_target_spec.
  unfold INPUT_BRACED_RX, directive1, input_directive.
  rewrite !app_assoc_s.
  change ("\input{" +:+ rel +:+ "}" +:+ rest)
    with ("\input" +:+ String "{" (rel +:+ "}" +:+ rest)).
  assert (∀ p s, strip_prefix p (p +:+ s) = Some s) as Hpre.
  { induction p as [|c p IH]; intros s; [done|]. rewrite app_String. simpl.
    by rewrite decide_True. }
  rewrite Hpre. simpl. unfold braced1. rewrite until_rbrace_app by done.
  by destruct rel.
Qed.

(** In a text that is plain but for one braced [\input], the pattern
    matches at the directive and nowhere else. *)
Lemma sole_hit_input_directive a1 rel a2 :
  contains "\" a1 = false → contains "\" a2 = false → is_target rel = true →
  sole_hit INPUT_BRACED_RX (a1 +:+ input_directive rel +:+ a2) a1 rel a2.
Proof.
  intros Ha1 Ha2 Hrel. unfold sole_hit, scan.
  rewrite scan_go_plain_prefix by (apply needs_backslash_directive1 || done).
  f_equal.
  pose proof (input_braced_at_directive rel a2 Hrel) as Hm.
  unfold input_directive in *. rewrite !app_assoc_s in *.
  change ("\input{" +:+ rel +:+ "}" +:+ a2)
    with (String "\" ("input{" +:+ rel +:+ "}" +:+ a2)) in *.
  rewrite (scan_go_hit _ _ _ _ _ Hm). f_equal.
  rewrite <- (app_assoc_s rel "}" a2), <- (app_assoc_s "input{" (rel +:+ "}") a2).
  rewrite length_app_s.
  replace (String.length ("input{" +:+ rel +:+ "}") + String.length a2
           - String.length a2)
    with (String.length ("input{" +:+ rel +:+ "}")) by lia.
  rewrite scan_go_skip.
  apply scan_go_no_match, no_match_plain; [apply needs_backslash_directive1|done].
Qed.

(** The other patterns find nothing in such a text. *)
Lemma no_match_around_input {G} (m : matcher G) a1 rel a2 :
  needs_backslash m →
  (∀ rest, m ("\input{" +:+ rest) = None) →
  contains "\" a1 = false → contains "\" a2 = false → is_target rel = true →
  no_match m (a1 +:+ input_directive rel +:+ a2).
Proof.
  intros Hm Hdir Ha1 Ha2 ((Hrel & _)%is_plain_spec & _ & _)%is_target_spec.
  apply no_match_app; [done..|].
  unfold input_directive. rewrite !app_assoc_s.
  change ("\input{" +:+ rel +:+ "}" +:+ a2)
    with (String "\" ("input{" +:+ rel +:+ "}" +:+ a2)).
  split.
  - apply (Hdir (rel +:+ "}" +:+ a2)).
  - apply no_match_plain; [done|].
    rewrite !contains_app, Hrel, Ha2. done.
Qed.

(* ===================================================================== *)
(** ** Absolute paths *)
(* ===================================================================== *)

Lemma split_on_nosep s : Forall (λ c, contains "/" c = false) (split_on "/" s).
Proof.
  induction s as [|c s IH]; simpl; [by constructor|].
  destruct (decide (c = "/"%char)) as [->|Hc]; [by constructor|].
  destruct (split_on "/" s) as [|x xs]; inversion IH; subst.
  - constructor; [|done]. simpl. by rewrite bool_decide_eq_false_2.
  - constructor; [|done]. simpl. by rewrite bool_decide_eq_false_2.
Qed.

Lemma split_on_nosep_single c :
  contains "/" c = false → split_on "/" c = [c].
Proof.
  induction c as [|d c IH]; [done|]. simpl.
  intros [Hd Hc]%orb_false_elim. apply bool_decide_eq_false in Hd.
  rewrite decide_False by done. by rewrite IH.
Qed.

Lemma split_on_nosep_app c rest :
  contains "/" c = false →
  split_on "/" (c +:+ "/" +:+ rest) = c :: split_on "/" rest.
Proof.
  induction c as [|d c IH]; [done|]. rewrite app_String. simpl.
  intros [Hd Hc]%orb_false_elim. apply bool_decide_eq_false in Hd.
  rewrite decide_False by done. by rewrite IH.
Qed.

Lemma split_on_join_sep comps :
  comps ≠ [] → Forall (λ c, contains "/" c = false) comps →
  split_on "/" (join_sep comps) = comps.
Proof.
  induction comps as [|c comps IH]; [done|]. intros _ Hall.
  inversion Hall as [|? ? Hc Hrest]; subst.
  destruct comps as [|c' comps].
  - simpl. by apply split_on_nosep_single.
  - change (join_sep (c :: c' :: comps)) with (c +:+ "/" +:+ join_sep (c' :: comps)).
    rewrite split_on_nosep_app by done. f_equal. by apply IH.
Qed.

Lemma normpath_step_kept k acc comp :
  k ≠ 0 → Forall kept_comp acc → contains "/" comp = false →
  Forall kept_comp (normpath_step k acc comp).
Proof.
  intros Hk Hacc Hcomp. unfold normpath_step.
  destruct (decide (comp = "")) as [->|H1]; [done|].
  destruct (decide (comp = ".")) as [->|H2]; [done|].
  rewrite (bool_decide_eq_false_2 (comp = "")), (bool_decide_eq_false_2 (comp = "."))
    by done.
  cbn [orb]. destruct (decide (comp = "..")) as [->|H3].
  - rewrite (bool_decide_eq_false_2 (".." ≠ "..")) by (by intros ?).
    rewrite (bool_decide_eq_false_2 (k = 0)) by done. cbn [orb andb].
    destruct acc as [|a acc] using rev_ind; [done|].
    rewrite last_snoc.
    apply Forall_app in Hacc as [Hacc Ha]. inversion Ha as [|? ? (_ & _ & Hdd & _) _]; subst.
    rewrite (bool_decide_eq_false_2 (Some a = Some "..")) by congruence.
    rewrite andb_false_r. by rewrite removelast_last.
  - rewrite (bool_decide_eq_true_2 (comp ≠ "..")) by done. cbn [orb].
    apply Forall_app. split; [done|]. by repeat constructor.
Qed.

Lemma normpath_comps_kept k acc comps :
  k ≠ 0 → Forall kept_comp acc → Forall (λ c, contains "/" c = false) comps →
  Forall kept_comp (foldl (normpath_step k) acc comps).
Proof.
  intros Hk. revert acc.
  induction comps as [|c comps IH]; intros acc Hacc Hall; [done|].
  inversion Hall; subst. simpl. apply IH; [|done]. by apply normpath_step_kept.
Qed.

Lemma normpath_comps_id k acc comps :
  Forall kept_comp comps → foldl (normpath_step k) acc comps = acc ++ comps.
Proof.
  revert acc. induction comps as [|c comps IH]; intros acc Hall; simpl.
  - by rewrite app_nil_r.
  - inversion Hall as [|? ? (H1 & H2 & H3 & _) Hrest]; subst.
    rewrite IH by done. rewrite (cons_middle c acc comps), (assoc_L (++)). f_equal.
    unfold normpath_step.
    rewrite (bool_decide_eq_false_2 (c = "")), (bool_decide_eq_false_2 (c = "."))
      by done.
    by rewrite (bool_decide_eq_true_2 (c ≠ "..")) by done.
Qed.

Lemma join_sep_kept_head comps :
  Forall kept_comp comps → startswith "/" (join_sep comps) = false.
Proof.
  destruct comps as [|c comps]; [done|].
  intros Hall. inversion Hall as [|? ? (H1 & _ & _ & H4) _]; subst.
  destruct c as [|d c]; [done|]. simpl in H4.
  apply orb_false_elim in H4 as [Hd _]. apply bool_decide_eq_false in Hd.
  assert (∀ rest, startswith "/" (String d rest) = false) as Hhead.
  { intros rest. unfold startswith. simpl. by rewrite decide_False by congruence. }
  destruct comps; [apply Hhead|].
  change (join_sep (String d c :: s :: comps))
    with (String d c +:+ "/" +:+ join_sep (s :: comps)).
  rewrite app_String. apply Hhead.
Qed.

(** [normpath] returns an absolute path in normal form. *)
Lemma normpath_normal_abs q : startswith "/" q = true → normal_abs (normpath q).
Proof.
  intros Hq. unfold normpath.
  destruct q as [|c q]; [done|]. rewrite bool_decide_eq_false_2 by done.
  rewrite Hq.
  set (k := if startswith "//" (String c q) && negb (startswith "///" (String c q))
            then 2 else 1).
  assert (k ≠ 0) as Hk by (subst k; by case_match).
  set (comps := foldl (normpath_step k) [] (split_on "/" (String c q))).
  assert (Forall kept_comp comps) as Hcomps.
  { apply normpath_comps_kept; [done|done|apply split_on_nosep]. }
  exists comps. split; [done|].
  destruct k as [|[|k]]; [done| |].
  - left. by rewrite bool_decide_eq_false_2.
  - right. by rewrite bool_decide_eq_false_2.
Qed.

(** An absolute path in normal form is left as it is. *)
Lemma normpath_of_normal_abs p :
  normal_abs p → startswith "/" p = true ∧ normpath p = p.
Proof.
  intros (comps & Hcomps & Hp).
  pose proof (join_sep_kept_head comps Hcomps) as Hhead.
  assert (foldl (normpath_step 1) [] ("" :: split_on "/" (join_sep comps)) = comps
          ∧ foldl (normpath_step 2) [] ("" :: "" :: split_on "/" (join_sep comps)) = comps)
    as [Hfold1 Hfold2].
  { destruct comps as [|c comps]; [done|].
    rewrite split_on_join_sep; [|done|].
    - change (foldl (normpath_step 1) [] ("" :: c :: comps))
        with (foldl (normpath_step 1) [] (c :: comps)).
      change (foldl (normpath_step 2) [] ("" :: "" :: c :: comps))
        with (foldl (normpath_step 2) [] (c :: comps)).
      by rewrite !normpath_comps_id by done.
    - eapply Forall_impl; [exact Hcomps|]. by intros ? (_ & _ & _ & ?). }
  destruct Hp as [-> | ->].
  - split; [done|]. unfold normpath. rewrite bool_decide_eq_false_2 by done.
    change (startswith "/" ("/" +:+ join_sep comps)) with true. cbn iota.
    change (startswith "//" ("/" +:+ join_sep comps))
      with (startswith "/" (join_sep comps)).
    rewrite Hhead. cbn [andb].
    change (split_on "/" ("/" +:+ join_sep comps))
      with ("" :: split_on "/" (join_sep comps)).
    rewrite Hfold1. by rewrite bool_decide_eq_false_2.
  - split; [done|]. unfold normpath. rewrite bool_decide_eq_false_2 by done.
    change (startswith "/" ("//" +:+ join_sep comps)) with true. cbn iota.
    change (startswith "//" ("//" +:+ join_sep comps)) with true.
    change (startswith "///" ("//" +:+ join_sep comps))
      with (startswith "/" (join_sep comps)).
    rewrite Hhead. cbn [andb negb].
    change (split_on "/" ("//" +:+ join_sep comps))
      with ("" :: "" :: split_on "/" (join_sep comps)).
    rewrite Hfold2. by rewrite bool_decide_eq_false_2.
Qed.

Lemma abspath_normal_abs cwd path :
  startswith "/" cwd = true → normal_abs (abspath cwd path).
Proof.
  intros Hcwd. unfold abspath.
  destruct (startswith "/" path) eqn:Hpath; [by apply normpath_normal_abs|].
  apply normpath_normal_abs. unfold path_join. rewrite Hpath.
  destruct cwd as [|c cwd]; [done|].
  assert (c = "/"%char) as ->.
  { unfold startswith in Hcwd. simpl in Hcwd.
    by destruct (decide ("/"%char = c)) as [<-|]. }
  rewrite (bool_decide_eq_false_2 (String "/" cwd = "")) by done. cbn [orb].
  destruct (endswith_sep (String "/" cwd)); by rewrite app_String.
Qed.

(** [expand] takes the absolute path of a path that [load_and_expand]
    has made absolute already: that changes nothing. *)
Lemma abspath_idemp cwd path :
  startswith "/" cwd = true →
  abspath cwd (abspath cwd path) = abspath cwd path.
Proof.
  intros Hcwd.
  destruct (normpath_of_normal_abs _ (abspath_normal_abs cwd path Hcwd)) as [Habs Hnorm].
  unfold abspath at 1. by rewrite Habs.
Qed.
(* ===================================================================== *)
(** ** The resolver: the set of visited files only grows *)
(* ===================================================================== *)

(** A relation that every replacement respects holds across a pass. *)
Lemma sub_pieces_st_rel {G} (R : gset string → gset string → Prop)
    (repl : G → gset string → result (string * gset string))
    (ps : list (piece G)) st t st' :
  (∀ s, R s s) →
  (∀ s1 s2 s3, R s1 s2 → R s2 s3 → R s1 s3) →
  (∀ g s t s', repl g s = Done (t, s') → R s s') →
  sub_pieces_st repl ps st = Done (t, st') → R st st'.
Proof.
  intros Hrefl Htrans Hrepl. revert st t st'.
  induction ps as [|p ps IH]; intros st t st'; [by intros [= _ <-]|].
  destruct p as [c|g]; cbn [sub_pieces_st].
  - intros ([t1 v1] & E & [= _ <-])%bind_Done. by eapply IH.
  - intros ([r v1] & Er & ([t2 v2] & E & [= _ <-])%bind_Done)%bind_Done.
    eapply Htrans; [by eapply Hrepl | by eapply IH].
Qed.

Lemma sub_pieces_st_mono {G} (repl : G → gset string → result (string * gset string))
    (ps : list (piece G)) v t v' :
  (∀ g v t v', repl g v = Done (t, v') → v ⊆ v') →
  sub_pieces_st repl ps v = Done (t, v') → v ⊆ v'.
Proof.
  intros Hrepl. apply (sub_pieces_st_rel (⊆)); [done | | done].
  intros s1 s2 s3 H12 H23. set_solver.
Qed.

Lemma settled_weaken P v v1 r : v ⊆ v1 → settled P v1 r → settled P v r.
Proof. intros Hsub. destruct r as [[t v']|e|]; simpl; [set_solver|done..]. Qed.

Lemma settled_bind (P : exn → Prop) (Q : gset string → Prop) v m
    (f : string * gset string → result (string * gset string)) :
  (∀ v v', Q v → v ⊆ v' → Q v') → Q v →
  settled P v m →
  (∀ t v', Q v' → settled P v' (f (t, v'))) →
  settled P v (m ≫= f).
Proof.
  intros HQ Hv Hm Hf. destruct m as [[t v']|e|]; simpl in *; [|done..].
  specialize (Hf t v' (HQ _ _ Hv Hm)).
  destruct (f (t, v')) as [[t2 v2]|e|]; simpl in *; [set_solver|done..].
Qed.

Lemma sub_pieces_st_total {G} (P : exn → Prop) (Q : gset string → Prop)
    (repl : G → gset string → result (string * gset string))
    (ps : list (piece G)) v :
  (∀ v v', Q v → v ⊆ v' → Q v') →
  (∀ g v, Q v → settled P v (repl g v)) →
  Q v → settled P v (sub_pieces_st repl ps v).
Proof.
  intros HQ Hrepl. revert v.
  induction ps as [|p ps IH]; intros v Hv; [simpl; set_solver|].
  destruct p as [c|g]; cbn [sub_pieces_st].
  - apply (settled_bind P Q); [done | done | by apply IH |].
    intros t v' _. simpl. set_solver.
  - apply (settled_bind P Q); [done | done | by apply Hrepl |].
    intros r v1 Hv1. apply (settled_bind P Q); [done | done | by apply IH |].
    intros t v2 _. simpl. set_solver.
Qed.

Section ResolverFacts.
Variable cwd : string.
Variable fs : gmap string entry.

Lemma expand_visited fuel includeonly path current_dir visited :
  abspath cwd path ∈ visited →
  expand cwd fs (S fuel) includeonly path current_dir visited = Done ("", visited).
Proof. intros Hin. simpl. by rewrite decide_True. Qed.

Lemma expand_mono fuel includeonly path current_dir visited t visited' :
  expand cwd fs fuel includeonly path current_dir visited = Done (t, visited') →
  visited ⊆ visited' ∧ abspath cwd path ∈ visited'.
Proof.
  revert path current_dir visited t visited'.
  induction fuel as [|fuel IH]; intros path current_dir visited t visited'; [done|].
  cbn [expand]. destruct (decide (abspath cwd path ∈ visited)) as [Hin|Hnotin].
  { by intros [= _ <-]. }
  destruct (read_file fs (abspath cwd path)) as [e|raw].
  { destruct e; try done. intros [= _ <-]. set_solver. }
  assert (∀ p d v0 t0 v0',
            expand cwd fs fuel includeonly p d v0 = Done (t0, v0') → v0 ⊆ v0') as Hcall.
  { intros p d v0 t0 v0' Hg. by apply IH in Hg as [? _]. }
  intros ([t1 v1] & E1 & ([t2 v2] & E2 & ([t3 v3] & E3 &
           ([t4 v4] & E4 & E5)%bind_Done)%bind_Done)%bind_Done)%bind_Done.
  apply sub_pieces_st_mono in E1, E2, E3, E4; eauto.
  apply sub_pieces_st_mono in E5.
  - set_solver.
  - intros g v0 t0 v0'. case_match; [by intros [= _ <-]|]. apply Hcall.
Qed.

(** Fuel above the number of readable files not yet visited is enough:
    every call either finds its path visited, or cannot read it, or
    visits a new file. *)
Lemma expand_terminates fuel includeonly path current_dir visited :
  size (dom fs ∖ visited) < fuel →
  settled (raised_by fs) visited
          (expand cwd fs fuel includeonly path current_dir visited).
Proof.
  revert path current_dir visited.
  induction fuel as [|fuel IH]; intros path current_dir visited Hfuel; [lia|].
  cbn [expand].
  destruct (decide (abspath cwd path ∈ visited)) as [Hin|Hnotin]; [simpl; set_solver|].
  unfold read_file.
  destruct (fs !! abspath cwd path) as [[raw|e]|] eqn:Hfile.
  3:{ simpl. set_solver. }
  2:{ destruct e; simpl; try (split; [done|by eauto]). set_solver. }
  set (Q := λ v : gset string, size (dom fs ∖ v) < fuel).
  assert (∀ v v', Q v → v ⊆ v' → Q v') as HQ.
  { unfold Q. intros v v' Hv Hsub.
    eapply Nat.le_lt_trans; [|exact Hv]. apply subseteq_size. set_solver. }
  assert (Q ({[abspath cwd path]} ∪ visited)) as HQ1.
  { unfold Q. eapply Nat.lt_le_trans; [|apply Nat.lt_succ_r, Hfuel].
    apply subset_size. apply elem_of_dom_2 in Hfile. set_solver. }
  apply (settled_weaken _ _ ({[abspath cwd path]} ∪ visited)); [set_solver|].
  unfold sub_st.
  apply (settled_bind _ Q); [done | done | by apply (sub_pieces_st_total _ Q); auto |].
  intros t1 v1 Hv1.
  apply (settled_bind _ Q); [done | done | by apply (sub_pieces_st_total _ Q); auto |].
  intros t2 v2 Hv2.
  apply (settled_bind _ Q); [done | done | by apply (sub_pieces_st_total _ Q); auto |].
  intros t3 v3 Hv3.
  apply (settled_bind _ Q); [done | done | by apply (sub_pieces_st_total _ Q); auto |].
  intros t4 v4 Hv4.
  apply (sub_pieces_st_total _ Q); [done | | done].
  intros g w Hw. case_match; [simpl; set_solver|]. by apply IH.
Qed.
End ResolverFacts.
(* ===================================================================== *)
(** ** Two files that include each other *)
(* ===================================================================== *)

(** A scan that finds no match has kept the text. *)
Lemma scan_go_lits_eq {G} (m : matcher G) s a : scan_go m 0 s = lits a → s = a.
Proof.
  revert a. induction s as [|c s IH]; intros a; simpl.
  - by destruct a.
  - destruct (m (String c s)) as [[g rest]|]; [by destruct a|].
    destruct a as [|d a]; [done|]. simpl. intros [= -> Hs]. f_equal. by apply IH.
Qed.

Lemma scan_go_lits_suffix {G} (m : matcher G) k s a :
  scan_go m k s = lits a → ∃ w, s = w +:+ a.
Proof.
  revert k. induction s as [|c s IH]; intros k; simpl.
  - destruct a; [|done]. by exists "".
  - destruct k as [|k].
    + intros Hs. exists "". by apply (scan_go_lits_eq m (String c s) a).
    + intros (w & ->)%IH. by exists (String c w).
Qed.

(** The text around the one match of a pattern is the text scanned. *)
Lemma sole_hit_split {G} (m : matcher G) text a1 g a2 :
  sole_hit m text a1 g a2 → ∃ w, text = a1 +:+ w +:+ a2.
Proof.
  unfold sole_hit, scan. revert text.
  induction a1 as [|c a1 IH]; intros text; destruct text as [|d text]; simpl; try done.
  - destruct (m (String d text)) as [[g' rest]|]; [|done].
    intros [= _ (w & ->)%scan_go_lits_suffix]. by exists (String d w).
  - destruct (m (String d text)) as [[g' rest]|]; [done|].
    intros [= -> (w & ->)%IH]. by exists w.
Qed.

Section Cycle.
Variable cwd : string.
Variable fs : gmap string entry.

(** The expansion of a file not yet visited in which one directive is
    the only one found: the text without its comments, with the expansion
    of the target in the place of the directive. *)
Lemma expand_sole_directive
    fuel includeonly path current_dir visited raw d a1 a2 r v1 :
  abspath cwd path ∉ visited →
  fs !! abspath cwd path = Some (Readable raw) →
  skipped includeonly d = false →
  expand cwd fs fuel includeonly (target current_dir d).1 (target current_dir d).2
         ({[abspath cwd path]} ∪ visited) = Done (r, v1) →
  sole_directive (strip_comments raw) d a1 a2 r →
  expand cwd fs (S fuel) includeonly path current_dir visited
  = Done (a1 +:+ r +:+ a2, v1).
Proof.
  intros Hnew Hfile Hskip Hcall Hsole.
  cbn [expand]. rewrite decide_False by done.
  unfold read_file. rewrite Hfile.
  destruct d as [g1 g2|g1 g2|g|g|g]; destruct Hsole as (H1 & H2 & H3 & H4 & H5);
    cbn [target fst snd] in Hcall; cbn [skipped] in Hskip.
  - rewrite (sub_st_sole_hit IMPORT_RX _ _ _ _ _ _ H1). cbn [fst snd].
    rewrite Hcall. cbn [mbind result_bind].
    rewrite (sub_st_no_match SUBIMPORT_RX) by done. cbn [mbind result_bind].
    rewrite (sub_st_no_match INPUT_BRACED_RX) by done. cbn [mbind result_bind].
    rewrite (sub_st_no_match INPUT_SPACEFORM_RX) by done. cbn [mbind result_bind].
    by rewrite (sub_st_no_match INCLUDE_RX) by done.
  - rewrite (sub_st_no_match IMPORT_RX) by done. cbn [mbind result_bind].
    rewrite (sub_st_sole_hit SUBIMPORT_RX _ _ _ _ _ _ H2). cbn [fst snd].
    rewrite Hcall. cbn [mbind result_bind].
    rewrite (sub_st_no_match INPUT_BRACED_RX) by done. cbn [mbind result_bind].
    rewrite (sub_st_no_match INPUT_SPACEFORM_RX) by done. cbn [mbind result_bind].
    by rewrite (sub_st_no_match INCLUDE_RX) by done.
  - rewrite (sub_st_no_match IMPORT_RX) by done. cbn [mbind result_bind].
    rewrite (sub_st_no_match SUBIMPORT_RX) by done. cbn [mbind result_bind].
    rewrite (sub_st_sole_hit INPUT_BRACED_RX _ _ _ _ _ _ H3).
    rewrite Hcall. cbn [mbind result_bind].
    rewrite (sub_st_no_match INPUT_SPACEFORM_RX) by done. cbn [mbind result_bind].
    by rewrite (sub_st_no_match INCLUDE_RX) by done.
  - rewrite (sub_st_no_match IMPORT_RX) by done. cbn [mbind result_bind].
    rewrite (sub_st_no_match SUBIMPORT_RX) by done. cbn [mbind result_bind].
    rewrite (sub_st_no_match INPUT_BRACED_RX) by done. cbn [mbind result_bind].
    rewrite (sub_st_sole_hit INPUT_SPACEFORM_RX _ _ _ _ _ _ H4).
    rewrite Hcall. cbn [mbind result_bind].
    by rewrite (sub_st_no_match INCLUDE_RX) by done.
  - rewrite (sub_st_no_match IMPORT_RX) by done. cbn [mbind result_bind].
    rewrite (sub_st_no_match SUBIMPORT_RX) by done. cbn [mbind result_bind].
    rewrite (sub_st_no_match INPUT_BRACED_RX) by done. cbn [mbind result_bind].
    rewrite (sub_st_no_match INPUT_SPACEFORM_RX) by done. cbn [mbind result_bind].
    rewrite (sub_st_sole_hit INCLUDE_RX _ _ _ _ _ _ H5).
    rewrite Hskip, Hcall. done.
Qed.

(** The same for a text that is plain but for one braced [\input]
    directive. *)
Lemma expand_one_input fuel includeonly path current_dir visited a1 rel a2 r v1 :
  let inc_path := ensure_tex_ext (norm_join current_dir (strip rel)) in
  abspath cwd path ∉ visited →
  fs !! abspath cwd path = Some (Readable (a1 +:+ input_directive rel +:+ a2)) →
  is_plain a1 = true → is_plain a2 = true → is_target rel = true →
  expand cwd fs fuel includeonly inc_path (dirname inc_path)
         ({[abspath cwd path]} ∪ visited) = Done (r, v1) →
  contains "\" r = false →
  expand cwd fs (S fuel) includeonly path current_dir visited
  = Done (a1 +:+ r +:+ a2, v1).
Proof.
  intros inc_path Hnew Hfile [Ha1 Pa1]%is_plain_spec [Ha2 Pa2]%is_plain_spec
         Hrel Hcall Hr.
  pose proof Hrel as ([Hrel1 Prel]%is_plain_spec & _ & _)%is_target_spec.
  apply (expand_sole_directive _ _ _ _ _ _ (DInputBraced rel) _ _ _ _ Hnew Hfile);
    [done | exact Hcall |].
  rewrite strip_comments_no_percent.
  2:{ unfold input_directive. rewrite !contains_app, Pa1, Prel, Pa2. done. }
  assert (contains "\" (a1 +:+ r +:+ a2) = false) as Hplain.
  { by rewrite !contains_app, Ha1, Hr, Ha2. }
  split_and!.
  - apply no_match_around_input;
      [apply needs_backslash_directive2 | by intros rest | done..].
  - apply no_match_around_input;
      [apply needs_backslash_directive2 | by intros rest | done..].
  - by apply sole_hit_input_directive.
  - apply no_match_plain; [apply needs_backslash_spaceform|done].
  - apply no_match_plain; [apply needs_backslash_directive1|done].
Qed.

(** [C5] as the code has it.  A includes B and B includes A, each through
    one directive, of any of the five forms, that is the only one the
    passes of [expand] find in the file, and that the allow-list of
    [\includeonly] does not leave out; the rest of both texts is
    arbitrary, comments and other commands included; the working
    directory is an absolute path.  With fuel for three calls the resolver returns, without an error, the text of A without
    its comments, with its directive replaced, where it stands, by the
    text of B without its comments, whose own directive, the second visit
    to A, is replaced by the empty text: what comes before the directive
    in A, then B's own content, then the rest of A, each once. *)
Theorem cyclic_inclusion_spliced_once
    fuel main_path rawA rawB dA dB a1 a2 b1 b2 :
  let pA := abspath cwd main_path in
  let includeonly := collect_includeonly rawA in
  let toB := target (dirname pA) dA in
  let toA := target toB.2 dB in
  startswith "/" cwd = true →
  abspath cwd toB.1 ≠ pA →
  abspath cwd toA.1 = pA →
  fs !! pA = Some (Readable rawA) →
  fs !! abspath cwd toB.1 = Some (Readable rawB) →
  sole_directive (strip_comments rawA) dA a1 a2 (b1 +:+ b2) →
  sole_directive (strip_comments rawB) dB b1 b2 "" →
  skipped includeonly dA = false →
  skipped includeonly dB = false →
  3 ≤ fuel →
  load_and_expand cwd fs fuel main_path = Returned (a1 +:+ b1 +:+ b2 +:+ a2) ∧
  (∃ wA, strip_comments rawA = a1 +:+ wA +:+ a2) ∧
  (∃ wB, strip_comments rawB = b1 +:+ wB +:+ b2).
Proof.
  intros pA includeonly toB toA Hcwd Hne HtoA HfA HfB HsA HsB HkA HkB Hfuel.
  assert (abspath cwd pA = pA) as HpA by (by apply abspath_idemp).
  split_and!.
  2:{ destruct dA; destruct HsA as (H1 & H2 & H3 & H4 & H5);
        eauto using @sole_hit_split. }
  2:{ destruct dB; destruct HsB as (H1 & H2 & H3 & H4 & H5);
        eauto using @sole_hit_split. }
  destruct fuel as [|[|[|fuel]]]; [lia..|].
  unfold load_and_expand, read_file. fold pA. rewrite HfA. fold includeonly.
  (* the second visit to A *)
  assert (expand cwd fs (S fuel) includeonly toA.1 toA.2
            ({[abspath cwd toB.1]} ∪ ({[abspath cwd pA]} ∪ ∅))
          = Done ("", {[abspath cwd toB.1]} ∪ ({[abspath cwd pA]} ∪ ∅))) as HA2.
  { apply expand_visited. rewrite HtoA, HpA. set_solver. }
  (* the visit to B *)
  assert (expand cwd fs (S (S fuel)) includeonly toB.1 toB.2
            ({[abspath cwd pA]} ∪ ∅)
          = Done (b1 +:+ b2, {[abspath cwd toB.1]} ∪ ({[abspath cwd pA]} ∪ ∅))) as HB.
  { rewrite <- (app_empty_l b2) at 1.
    apply (expand_sole_directive _ _ _ _ _ rawB dB); try done.
    rewrite HpA. set_solver. }
  (* the visit to A *)
  assert (expand cwd fs (S (S (S fuel))) includeonly pA (dirname pA) ∅
          = Done (a1 +:+ (b1 +:+ b2) +:+ a2,
                  {[abspath cwd toB.1]} ∪ ({[abspath cwd pA]} ∪ ∅))) as ->.
  { apply (expand_sole_directive _ _ _ _ _ rawA dA); try done.
    by rewrite HpA. }
  by rewrite app_assoc_s.
Qed.
End Cycle.

(** In [fs_cycle_tex], A holds a section command, a comment and an
    [\include] of B; B holds a command and an [\import] of A. *)
Lemma cyclic_inclusion_spliced_once_witness :
  load_and_expand "/p" fs_cycle_tex 3 "A.tex"
  = Returned (("\section{A}" +:+ nl) +:+ "\textbf{B} " +:+ "" +:+ " end").
Proof.
  apply (cyclic_inclusion_spliced_once "/p" fs_cycle_tex 3 "A.tex"
           ("\section{A}% note" +:+ nl +:+ "\include{B} end")
           "\textbf{B} \import{./}{A.tex}"
           (DInclude "B") (DImport "./" "A.tex")
           ("\section{A}" +:+ nl) " end" "\textbf{B} " "");
    first [ lia
          | vm_compute; reflexivity
          | vm_compute; discriminate
          | vm_compute; repeat split ].
Defined.

(** [C5] as the specification words it fails: in [fs_cycle] the directive
    opens the text of A, so the own content of B comes out before that of
    A, not after it. *)
Lemma cyclic_inclusion_order_counterexample :
  ¬ ∃ text, load_and_expand "/p" fs_cycle 3 "A.tex" = Returned text ∧
            contains_in_order text "[A]" "[B]".
Proof.
  intros (text & Hrun & pre & mid & post & Htext).
  assert (text = "[B][A]") as -> by (vm_compute in Hrun; congruence).
  pose proof (f_equal String.length Htext) as Hlen.
  rewrite !length_app_s in Hlen. simpl in Hlen.
  destruct pre; [|simpl in Hlen; lia].
  destruct mid; [|simpl in Hlen; lia].
  destruct post; [|simpl in Hlen; lia].
  vm_compute in Htext. discriminate Htext.
Qed.
(* ===================================================================== *)
(** ** The record of the calls of [expand] *)
(* ===================================================================== *)










Section ResolverLog.
Variable cwd : string.
Variable fs : gmap string entry.



End ResolverLog.


(* ===================================================================== *)
(** * Further properties of the code *)
(* ===================================================================== *)

(* ===================================================================== *)
(** ** The taxonomy *)
(* ===================================================================== *)

Local Ltac alias_cases H :=
  repeat (let E := fresh "E" in
          apply elem_of_cons in H as [E|H]; [simplify_eq|]);
  try (by apply elem_of_nil in H).

Lemma first_alias_as_lower tbl envname :
  first_alias tbl envname = first_alias_lower tbl (string_lower envname).
Proof.
  induction tbl as [|[c rx] tbl IH]; [done|]. simpl. unfold fullmatch_alias.
  by rewrite IH.
Qed.

(** [X1] The alias patterns are disjoint: a block name that one category
    accepts is accepted by no other category and is no proof alias, so
    the order in which [canonical_of_env] tries the categories, and the
    order of the two tests in [walk], decide nothing. *)
Theorem alias_patterns_disjoint envname c alts :
  (c, alts) ∈ ALIASES →
  fullmatch_alias alts envname = true →
  canonical_of_env envname = Some c ∧
  fullmatch_alias PROOF_ALIAS_RX envname = false ∧
  ∀ c' alts', (c', alts') ∈ ALIASES → fullmatch_alias alts' envname = true → c' = c.
Proof.
  unfold canonical_of_env. rewrite first_alias_as_lower. unfold fullmatch_alias.
  generalize (string_lower envname). intros x Hin Hx.
  apply bool_decide_eq_true in Hx. unfold ALIASES in Hin.
  alias_cases Hin; alias_cases Hx;
    (split_and!; [by vm_compute | by vm_compute |];
     intros c' alts' Hin' Hx'; unfold ALIASES in Hin';
     alias_cases Hin'; by vm_compute in Hx').
Qed.

Lemma alias_patterns_disjoint_witness :
  canonical_of_env "Defn" = Some definition ∧
  fullmatch_alias PROOF_ALIAS_RX "Defn" = false.
Proof.
  destruct (alias_patterns_disjoint "Defn" definition ["definition"; "defn"; "def"])
    as (Hc & Hp & _); [by left | by vm_compute |].
  split; [exact Hc | exact Hp].
Defined.

(* ===================================================================== *)
(** ** The tables of a parse *)
(* ===================================================================== *)

Lemma recorded_elem sel bs c ni o :
  (ni, o) ∈ recorded sel bs c →
  classify sel (env ni) = StatementBlock (canon ni) ∧
  (∀ l, o = Some l → label ni = l).
Proof.
  revert c. induction bs as [|[envname s] bs IH]; intros c; simpl.
  - by intros ?%elem_of_nil.
  - destruct (classify sel envname) as [k| |] eqn:Ek; [|apply IH..].
    intros [[= -> ->]|Hin]%elem_of_cons; [|by eapply IH].
    simpl. split; [done|]. intros l Hl. unfold label_for. by rewrite Hl.
Qed.

Lemma classify_statement_selected sel envname k :
  classify sel envname = StatementBlock k → k ∈ sel.
Proof.
  unfold classify. destruct (canonical_of_env envname) as [c|];
    repeat case_match; try done.
  intros [= <-]. by eapply bool_decide_eq_true_1.
Qed.

Lemma parse_node_category nodelist sel ni :
  ni ∈ r_nodes (parse_latex_structure nodelist sel) →
  canon ni ∈ sel ∧ canonical_of_env (env ni) = Some (canon ni).
Proof.
  rewrite parse_nodes. intros ([n o] & -> & Hin)%list_elem_of_fmap. simpl.
  apply recorded_elem in Hin as [Hk _].
  split; [by eapply classify_statement_selected | by eapply classify_statement].
Qed.

(** [X2] Every statement node of a parse belongs to a selected category,
    and that category is the one its block name classifies to. *)
Theorem nodes_are_selected_and_classified nodelist sel ni :
  ni ∈ r_nodes (parse_latex_structure nodelist sel) →
  canon ni ∈ sel ∧ canonical_of_env (env ni) = Some (canon ni).
Proof. apply parse_node_category. Qed.

Lemma nodes_are_selected_and_classified_witness :
  let ni := mkNodeInfo theorem "theorem" "T1" 1 in
  canon ni ∈ CANONICAL_ORDER ∧ canonical_of_env (env ni) = Some (canon ni).
Proof.
  intros ni.
  apply (nodes_are_selected_and_classified (nodes_of doc_scenario1) CANONICAL_ORDER ni).
  vm_compute. apply list_elem_of_further, list_elem_of_here.
Defined.

(** [X3] [node_by_index] maps an ordinal to the statement node that carries
    it and to nothing else: a look-up succeeds exactly on the ordinals of
    the recorded nodes, and two nodes never share one. *)
Theorem node_by_index_is_the_index nodelist sel :
  let r := parse_latex_structure nodelist sel in
  (∀ i ni, r_node_by_index r !! i = Some ni ↔ ni ∈ r_nodes r ∧ index ni = i) ∧
  (∀ ni nj, ni ∈ r_nodes r → nj ∈ r_nodes r → index ni = index nj → ni = nj).
Proof.
  intros r.
  assert (∀ i ni, r_node_by_index r !! i = Some ni ↔ ni ∈ r_nodes r ∧ index ni = i)
    as Hiff.
  { subst r. unfold parse_latex_structure. simpl. rewrite walk_all_run.
    by destruct (walk_inv_run sel (blocks_of_all nodelist)) as [_ _ Hi _ _ _]. }
  split; [exact Hiff|].
  intros ni nj Hi Hj Heq.
  assert (r_node_by_index r !! index ni = Some ni) as H1 by (by apply Hiff).
  assert (r_node_by_index r !! index ni = Some nj) as H2 by (by apply Hiff).
  congruence.
Qed.

(** [X4] A look-up in [label_to_node] returns a recorded statement node
    that carries the label asked for. *)
Theorem label_to_node_is_sound nodelist sel l ni :
  let r := parse_latex_structure nodelist sel in
  r_label_to_node r !! l = Some ni →
  ni ∈ r_nodes r ∧ label ni = l.
Proof.
  intros r Hlook. subst r. rewrite parse_label_to_node in Hlook.
  unfold last_declaring in Hlook.
  destruct (last (filter _ _)) as [[n o]|] eqn:Hlast; [|done].
  simpl in Hlook. injection Hlook as ->.
  apply last_Some_elem_of, list_elem_of_filter in Hlast as [Ho Hin].
  simpl in Ho. subst o. split.
  - rewrite parse_nodes. apply list_elem_of_fmap. by exists (ni, Some l).
  - apply recorded_elem in Hin as [_ Hl]. by apply Hl.
Qed.

Lemma label_to_node_is_sound_witness :
  let r := parse_latex_structure (nodes_of doc_scenario1) CANONICAL_ORDER in
  let ni := mkNodeInfo theorem "theorem" "T1" 1 in
  ni ∈ r_nodes r ∧ label ni = "T1".
Proof.
  intros r ni.
  apply (label_to_node_is_sound (nodes_of doc_scenario1) CANONICAL_ORDER "T1" ni).
  by vm_compute.
Defined.

(* ===================================================================== *)
(** ** The labels a block uses *)
(* ===================================================================== *)

Lemma rstrip_idem s : rstrip (rstrip s) = rstrip s.
Proof.
  induction s as [|c s IH]; [done|]. simpl.
  destruct (rstrip s) as [|d r] eqn:E.
  - destruct (is_space c) eqn:Ec; [done|]. simpl. by rewrite Ec.
  - simpl. simpl in IH. by rewrite IH.
Qed.

Lemma rstrip_nonspace_head c s :
  is_space c = false → ∃ r, rstrip (String c s) = String c r.
Proof.
  intros Hc. simpl. destruct (rstrip s); [rewrite Hc|]; eauto.
Qed.

Lemma lstrip_head s :
  lstrip s = "" ∨ ∃ c s', lstrip s = String c s' ∧ is_space c = false.
Proof.
  induction s as [|c s IH]; [by left|]. simpl.
  destruct (is_space c) eqn:Ec; [done|]. right. eauto.
Qed.

Lemma strip_idem s : strip (strip s) = strip s.
Proof.
  unfold strip. destruct (lstrip_head s) as [->|(c & s' & -> & Hc)]; [done|].
  destruct (rstrip_nonspace_head c s' Hc) as [r Hr].
  assert (lstrip (rstrip (String c s')) = rstrip (String c s')) as ->.
  { rewrite Hr. simpl. by rewrite Hc. }
  apply rstrip_idem.
Qed.

Lemma csv_labels_clean g : Forall clean_label (csv_labels g).
Proof.
  apply Forall_forall. intros l [Hne Hin]%list_elem_of_filter.
  apply list_elem_of_fmap in Hin as (x & -> & _).
  split; [done|apply strip_idem].
Qed.

Lemma dd_extend_keys idx labels d :
  (dd_extend idx labels d).*1 = if decide (idx ∈ d.*1) then d.*1 else d.*1 ++ [idx].
Proof.
  induction d as [|[k v] d IH]; [done|].
  cbn [dd_extend]. rewrite (fmap_cons fst (k, v) d). cbn [fst].
  destruct (decide (k = idx)) as [->|Hne].
  - rewrite fmap_cons, decide_True; [done|]. by left.
  - rewrite fmap_cons, IH. cbn [fst].
    destruct (decide (idx ∈ d.*1)) as [Hin|Hnotin].
    + rewrite decide_True; [done|]. by right.
    + rewrite decide_False; [done|].
      intros [?|?]%elem_of_cons; [congruence|done].
Qed.

Lemma dd_extend_entries (P : list string → Prop) idx labels d :
  (∀ v, P v → P (v ++ labels)) → P labels →
  Forall (λ e, P e.2) d → Forall (λ e, P e.2) (dd_extend idx labels d).
Proof.
  intros Happ Hnew. induction 1 as [|[k v] d Hv Hd IH]; simpl.
  - by repeat constructor.
  - destruct (decide (k = idx)); constructor; simpl in *; auto.
Qed.

Lemma record_uses_keys_present idx gs d :
  idx ∈ d.*1 →
  (foldl (λ d g, match csv_labels g with
                 | [] => d
                 | labels => dd_extend idx labels d
                 end) d gs).*1 = d.*1.
Proof.
  revert d. induction gs as [|g gs IH]; intros d Hin; simpl; [done|].
  destruct (csv_labels g) as [|l ls]; [by apply IH|].
  rewrite IH; rewrite dd_extend_keys, decide_True; done.
Qed.

Lemma record_uses_keys idx s d :
  (record_uses idx s d).*1 = d.*1 ∨ (record_uses idx s d).*1 = d.*1 ++ [idx].
Proof.
  unfold record_uses. generalize (finditer USES_RX s). intros gs. revert d.
  induction gs as [|g gs IH]; intros d; simpl; [by left|].
  destruct (csv_labels g) as [|l ls]; [by apply IH|].
  destruct (decide (idx ∈ d.*1)) as [Hin|Hnotin].
  - left. rewrite record_uses_keys_present; rewrite dd_extend_keys, decide_True; done.
  - right. rewrite record_uses_keys_present; rewrite dd_extend_keys, decide_False by done;
      [done|]. apply elem_of_app. right. by left.
Qed.

Lemma record_uses_entries idx s d :
  Forall (λ e, e.2 ≠ [] ∧ Forall clean_label e.2) d →
  Forall (λ e, e.2 ≠ [] ∧ Forall clean_label e.2) (record_uses idx s d).
Proof.
  unfold record_uses. generalize (finditer USES_RX s). intros gs. revert d.
  induction gs as [|g gs IH]; intros d Hd; simpl; [done|].
  pose proof (csv_labels_clean g) as Hclean.
  destruct (csv_labels g) as [|l ls] eqn:Eg; [by apply IH|].
  apply IH.
  apply (dd_extend_entries (λ v, v ≠ [] ∧ Forall clean_label v)); [|done|done].
  intros v [Hv1 Hv2]. split; [by destruct v|]. by apply Forall_app.
Qed.

Lemma proof_uses_clean gs acc :
  Forall clean_label acc →
  Forall clean_label (foldl (λ used g, used ++ csv_labels g) acc gs).
Proof.
  revert acc. induction gs as [|g gs IH]; intros acc Hacc; simpl; [done|].
  apply IH, Forall_app. split; [done|apply csv_labels_clean].
Qed.

Lemma StronglySorted_lt_snoc (l : list nat) x :
  StronglySorted lt l → Forall (λ i, i < x) l → StronglySorted lt (l ++ [x]).
Proof.
  induction 1 as [|y l Hl IH Hy]; intros Hlt; simpl.
  - by repeat constructor.
  - apply Forall_cons in Hlt as [Hyx Hlt]. constructor; [by apply IH|].
    apply Forall_app. split; [done|]. by repeat constructor.
Qed.

Lemma uses_inv_init : uses_inv init_state.
Proof. split; simpl; constructor. Qed.

Lemma uses_inv_visit sel envname s st :
  uses_inv st → uses_inv (visit sel envname s st).
Proof.
  intros [Hp He Hlt Hs Hn]. rewrite visit_classify.
  destruct (classify sel envname) as [k| |]; [| |by split].
  - unfold visit_statement.
    set (ni := mkNodeInfo k envname _ (order_counter st)).
    assert (Forall (λ i, i < S (order_counter st)) (uses_on_node st).*1) as Hlt'.
    { eapply Forall_impl; [exact Hlt|]. simpl. lia. }
    assert (Forall (λ i, i ∈ index <$> nodes st ++ [ni]) (uses_on_node st).*1) as Hn'.
    { eapply Forall_impl; [exact Hn|]. simpl. intros i Hi.
      rewrite fmap_app. apply elem_of_app. by left. }
    split; simpl; [done|by apply record_uses_entries|..];
      destruct (record_uses_keys (order_counter st) s (uses_on_node st)) as [->| ->];
      try done.
    + apply Forall_app. split; [done|]. constructor; [lia|constructor].
    + by apply StronglySorted_lt_snoc.
    + apply Forall_app. split; [done|]. constructor; [|constructor].
      rewrite fmap_app. apply elem_of_app. right. by left.
  - unfold visit_proof. split; simpl; try done.
    + apply Forall_app. split; [done|]. constructor; [|constructor]. simpl.
      by apply proof_uses_clean.
    + eapply Forall_impl; [exact Hlt|]. simpl. lia.
Qed.

Lemma uses_inv_run sel bs : uses_inv (run sel bs init_state).
Proof.
  apply (run_invariant uses_inv); [apply uses_inv_init|].
  intros st envname s. apply uses_inv_visit.
Qed.

(** [X5] The labels that reach the assembler are clean: every label in the
    uses of a proof and in an entry of [uses_on_node] is non-empty and has
    no white space at either end, and no entry of [uses_on_node] is an
    empty list. *)
Theorem used_labels_are_clean nodelist sel :
  let r := parse_latex_structure nodelist sel in
  Forall (λ p, Forall clean_label (p_uses p)) (r_proofs r) ∧
  Forall (λ e, e.2 ≠ [] ∧ Forall clean_label e.2) (r_uses_on_node r).
Proof.
  intros r. subst r. unfold parse_latex_structure. simpl. rewrite walk_all_run.
  destruct (uses_inv_run sel (blocks_of_all nodelist)) as [Hp He _ _ _].
  split; [|done]. apply Forall_fmap. eapply Forall_impl; [exact Hp|].
  intros p Hclean. simpl. by rewrite resolve_proof_uses.
Qed.

(** [X6] [uses_on_node] has one entry at most for a statement node, keyed by
    its ordinal, and the entries come in traversal order: the keys
    increase strictly and each is the ordinal of a recorded node. *)
Theorem uses_on_node_keys nodelist sel :
  let r := parse_latex_structure nodelist sel in
  StronglySorted lt (r_uses_on_node r).*1 ∧
  Forall (λ i, i ∈ index <$> r_nodes r) (r_uses_on_node r).*1.
Proof.
  intros r. subst r. unfold parse_latex_structure. simpl. rewrite walk_all_run.
  by destruct (uses_inv_run sel (blocks_of_all nodelist)) as [_ _ _ Hs Hn].
Qed.

(* ===================================================================== *)
(** ** The nodes and edges of the assembled graph *)
(* ===================================================================== *)

Lemma elem_of_add_node G n m :
  m ∈ g_nodes (add_node G n) ↔ m ∈ g_nodes G ∨ m = n.
Proof.
  unfold add_node. case_bool_decide as Hin; simpl.
  - split; [by left|]. by intros [?| ->].
  - rewrite elem_of_app, list_elem_of_singleton. done.
Qed.

Lemma NoDup_add_node G n : NoDup (g_nodes G) → NoDup (g_nodes (add_node G n)).
Proof.
  intros Hnd. unfold add_node. case_bool_decide as Hin; simpl; [done|].
  apply NoDup_app. split_and!; [done| |apply NoDup_singleton].
  intros m Hm ->%list_elem_of_singleton. done.
Qed.

Lemma g_nodes_add_edge G u v style :
  g_nodes (add_edge G u v style) = g_nodes (add_node (add_node G u) v).
Proof. done. Qed.

Lemma g_edges_add_edge G u v style :
  g_edges (add_edge G u v style) = update_edge u v style (g_edges G).
Proof.
  unfold add_edge. simpl. f_equal. unfold add_node. by repeat case_bool_decide.
Qed.

(** Nodes are only ever added, and never twice. *)
Lemma add_uses_edges_nodes ltn tgt style G labels :
  NoDup (g_nodes G) →
  NoDup (g_nodes (add_uses_edges ltn tgt style G labels)) ∧
  ∀ m, m ∈ g_nodes G → m ∈ g_nodes (add_uses_edges ltn tgt style G labels).
Proof.
  unfold add_uses_edges. revert G.
  induction labels as [|l labels IH]; intros G Hnd; simpl; [done|].
  destruct (ltn !! l) as [src|]; [|by apply IH].
  destruct (IH (add_edge G (label src) tgt style)) as [Hnd' Hmono].
  { rewrite g_nodes_add_edge. by do 2 apply NoDup_add_node. }
  split; [done|]. intros m Hm. apply Hmono.
  rewrite g_nodes_add_edge, !elem_of_add_node. auto.
Qed.

Lemma foldl_nodes_mono {A} (f : AGraph → A → AGraph) G xs :
  (∀ G x, NoDup (g_nodes G) →
          NoDup (g_nodes (f G x)) ∧ ∀ m, m ∈ g_nodes G → m ∈ g_nodes (f G x)) →
  NoDup (g_nodes G) →
  NoDup (g_nodes (foldl f G xs)) ∧ ∀ m, m ∈ g_nodes G → m ∈ g_nodes (foldl f G xs).
Proof.
  intros Hf. revert G. induction xs as [|x xs IH]; intros G Hnd; simpl; [done|].
  destruct (Hf G x Hnd) as [Hnd1 Hm1]. destruct (IH _ Hnd1) as [Hnd2 Hm2].
  split; [done|]. auto.
Qed.

Lemma node_loop_nodes ns G :
  NoDup (g_nodes G) →
  NoDup (g_nodes (foldl (λ G ni, add_node G (label ni)) G ns)) ∧
  ∀ m, m ∈ g_nodes (foldl (λ G ni, add_node G (label ni)) G ns) ↔
       m ∈ g_nodes G ∨ m ∈ label <$> ns.
Proof.
  revert G. induction ns as [|ni ns IH]; intros G Hnd; simpl.
  - split; [done|]. intros m. rewrite elem_of_nil. naive_solver.
  - destruct (IH (add_node G (label ni)) (NoDup_add_node _ _ Hnd)) as [Hnd' Hiff].
    split; [done|]. intros m. rewrite Hiff, elem_of_add_node, elem_of_cons.
    naive_solver.
Qed.

(** [X7] The nodes of the assembled graph are the labels of the statement
    nodes, each once: statement nodes that carry the same label are one
    node of the graph, and no edge brings in a node of its own. *)
Theorem graph_nodes_are_the_labels nodelist sel :
  let r := parse_latex_structure nodelist sel in
  NoDup (g_nodes (build_graph r)) ∧
  ∀ n, n ∈ g_nodes (build_graph r) ↔ n ∈ label <$> r_nodes r.
Proof.
  intros r.
  destruct (parse_tables_within nodelist sel) as [Hi Hl]. fold r in Hi, Hl.
  destruct (graph_within_build r Hi Hl) as [Hsub _].
  unfold build_graph in *.
  destruct (node_loop_nodes (r_nodes r) empty_graph) as [Hnd0 Hiff0];
    [constructor|].
  set (G0 := foldl (λ G ni, add_node G (label ni)) empty_graph (r_nodes r)) in *.
  destruct (foldl_nodes_mono (statement_edges (r_node_by_index r) (r_label_to_node r))
              G0 (r_uses_on_node r)) as [Hnd1 Hm1]; [|done|].
  { intros G e HG. unfold statement_edges. case_match; [|done].
    by apply add_uses_edges_nodes. }
  set (G1 := foldl _ G0 (r_uses_on_node r)) in *.
  destruct (foldl_nodes_mono (proof_edges (r_node_by_index r) (r_label_to_node r))
              G1 (r_proofs r)) as [Hnd2 Hm2]; [|done|].
  { intros G p HG. unfold proof_edges. repeat case_match; try done.
    by apply add_uses_edges_nodes. }
  split; [done|]. intros n. split; [apply Hsub|].
  intros Hn. apply Hm2, Hm1, Hiff0. by right.
Qed.

Lemma update_edge_dashed d u v es a b st :
  Forall (λ e, e.2 = Some d) es →
  Forall (λ e, e.2 = Some d) (update_edge u v (Some d) es) ∧
  ((a, b, st) ∈ update_edge u v (Some d) es ↔
   (a, b, st) ∈ es ∨ (a, b, st) = (u, v, Some d)).
Proof.
  induction 1 as [|[[u' v'] st'] es Hst Hes [IH1 IH2]]; simpl.
  - split; [by repeat constructor|]. rewrite list_elem_of_singleton, elem_of_nil.
    naive_solver.
  - simpl in Hst. subst st'. destruct (decide (u' = u ∧ v' = v)) as [[-> ->]|Hne].
    + split; [by constructor|]. rewrite !elem_of_cons. naive_solver.
    + split; [by constructor|]. rewrite !elem_of_cons, IH2. naive_solver.
Qed.

Lemma edge_keys_update_edge u v style es k :
  k ∈ edge_keys (update_edge u v style es) ↔ k ∈ edge_keys es ∨ k = (u, v).
Proof.
  unfold edge_keys. induction es as [|[[u' v'] st'] es IH]; simpl.
  - rewrite list_elem_of_singleton, elem_of_nil. naive_solver.
  - destruct (decide (u' = u ∧ v' = v)) as [[-> ->]|Hne]; simpl.
    + rewrite !elem_of_cons. naive_solver.
    + rewrite !elem_of_cons, IH. naive_solver.
Qed.

Lemma NoDup_edge_keys_update_edge u v style es :
  NoDup (edge_keys es) → NoDup (edge_keys (update_edge u v style es)).
Proof.
  unfold edge_keys. induction es as [|[[u' v'] st'] es IH]; simpl.
  - intros _. apply NoDup_singleton.
  - intros [Hnotin Hnd]%NoDup_cons.
    destruct (decide (u' = u ∧ v' = v)) as [[-> ->]|Hne]; simpl.
    + by apply NoDup_cons.
    + apply NoDup_cons. split; [|by apply IH].
      intros [Hin|[= -> ->]]%(edge_keys_update_edge u v style es); [done|].
      by apply Hne.
Qed.

Lemma update_edge_none u v es a b st :
  (a, b, st) ∈ update_edge u v None es ↔
  (a, b, st) ∈ es ∨ ((a, b, st) = (u, v, None) ∧ (u, v) ∉ edge_keys es).
Proof.
  unfold edge_keys. induction es as [|[[u' v'] st'] es IH]; simpl.
  - rewrite list_elem_of_singleton, !elem_of_nil. naive_solver.
  - destruct (decide (u' = u ∧ v' = v)) as [[-> ->]|Hne]; simpl.
    + rewrite !elem_of_cons. naive_solver.
    + rewrite !elem_of_cons, IH. naive_solver.
Qed.

(** A run of requests with the dashed style on edges that are all dashed. *)
Lemma foldl_update_dashed d reqs es a b st :
  Forall (λ e, e.2 = Some d) es →
  let es' := foldl (λ es k, update_edge k.1 k.2 (Some d) es) es reqs in
  Forall (λ e, e.2 = Some d) es' ∧
  ((a, b, st) ∈ es' ↔ (a, b, st) ∈ es ∨ ((a, b) ∈ reqs ∧ st = Some d)).
Proof.
  revert es. induction reqs as [|[u v] reqs IH]; intros es Hes; simpl.
  - split; [done|]. rewrite elem_of_nil. naive_solver.
  - destruct (update_edge_dashed d u v es a b st Hes) as [Hes1 Hiff1].
    destruct (IH _ Hes1) as [Hes2 Hiff2]. split; [done|].
    rewrite Hiff2, Hiff1, elem_of_cons. naive_solver.
Qed.

(** A run of requests without a style: an edge that exists keeps its
    style, a new one has none. *)
Lemma foldl_update_none reqs es a b st :
  let es' := foldl (λ es k, update_edge k.1 k.2 None es) es reqs in
  (a, b, st) ∈ es' ↔
  (a, b, st) ∈ es ∨ (st = None ∧ (a, b) ∈ reqs ∧ (a, b) ∉ edge_keys es).
Proof.
  revert es. induction reqs as [|[u v] reqs IH]; intros es; simpl.
  - rewrite elem_of_nil. naive_solver.
  - rewrite IH, update_edge_none, elem_of_cons.
    pose proof (edge_keys_update_edge u v None es (a, b)) as Hk.
    destruct (decide ((a, b) = (u, v))) as [[= -> ->]|Hne]; [|naive_solver].
    destruct (decide ((u, v) ∈ edge_keys es)); naive_solver.
Qed.

Lemma foldl_update_NoDup style reqs es :
  NoDup (edge_keys es) →
  NoDup (edge_keys (foldl (λ es k, update_edge k.1 k.2 style es) es reqs)).
Proof.
  revert es. induction reqs as [|[u v] reqs IH]; intros es Hnd; simpl; [done|].
  by apply IH, NoDup_edge_keys_update_edge.
Qed.

Lemma g_edges_add_uses_edges ltn tgt style G labels :
  g_edges (add_uses_edges ltn tgt style G labels) =
  foldl (λ es k, update_edge k.1 k.2 style es) (g_edges G)
        ((λ u, (u, tgt)) <$> resolved_sources ltn labels).
Proof.
  unfold add_uses_edges, resolved_sources. revert G.
  induction labels as [|l labels IH]; intros G; simpl; [done|].
  destruct (ltn !! l) as [src|]; simpl; [|apply IH].
  by rewrite IH, g_edges_add_edge.
Qed.

Lemma g_edges_node_loop ns G :
  g_edges (foldl (λ G ni, add_node G (label ni)) G ns) = g_edges G.
Proof.
  revert G. induction ns as [|ni ns IH]; intros G; simpl; [done|].
  rewrite IH. unfold add_node. by case_bool_decide.
Qed.

Lemma g_edges_statement_loop nbi ltn us G :
  g_edges (foldl (statement_edges nbi ltn) G us) =
  foldl (λ es k, update_edge k.1 k.2 (Some "dashed") es) (g_edges G)
        (e ← us;
         match nbi !! e.1 with
         | None => []
         | Some target_node =>
             (λ u, (u, label target_node)) <$> resolved_sources ltn e.2
         end).
Proof.
  revert G. induction us as [|e us IH]; intros G; [done|].
  cbn [foldl mbind list_bind]. rewrite foldl_app, IH. f_equal.
  unfold statement_edges. destruct (nbi !! e.1); [|done].
  apply g_edges_add_uses_edges.
Qed.

Lemma g_edges_proof_loop nbi ltn ps G :
  g_edges (foldl (proof_edges nbi ltn) G ps) =
  foldl (λ es k, update_edge k.1 k.2 None es) (g_edges G)
        (p ← ps;
         match p_target_node_idx p ≫= (nbi !!.) with
         | None => []
         | Some target_node =>
             (λ u, (u, label target_node)) <$> resolved_sources ltn (p_uses p)
         end).
Proof.
  revert G. induction ps as [|p ps IH]; intros G; [done|].
  cbn [foldl mbind list_bind]. rewrite foldl_app, IH. f_equal.
  unfold proof_edges. destruct (p_target_node_idx p) as [tgt|]; [|done].
  cbn [mbind option_bind]. destruct (nbi !! tgt); [|done].
  apply g_edges_add_uses_edges.
Qed.

(** [X8] The edges of the assembled graph, for any tables handed to
    [build_graph].  There is one edge at most between two end points.  An
    edge is dashed exactly when a statement's own [\uses] asks for it, and
    plain exactly when only the uses of a proof ask for it: a later
    request for an existing edge neither doubles it nor changes a dashed
    edge into a plain one. *)
Theorem graph_edges_are_the_resolved_uses (r : ParseResult) (u v : string) :
  let es := g_edges (build_graph r) in
  NoDup (edge_keys es) ∧
  ((u, v, Some "dashed") ∈ es ↔ (u, v) ∈ statement_edge_requests r) ∧
  ((u, v, None) ∈ es ↔
     (u, v) ∈ proof_edge_requests r ∧ (u, v) ∉ statement_edge_requests r) ∧
  (∀ style, (u, v, style) ∈ es → style = Some "dashed" ∨ style = None).
Proof.
  intros es. subst es. unfold build_graph.
  rewrite g_edges_proof_loop, g_edges_statement_loop, g_edges_node_loop.
  fold (statement_edge_requests r). fold (proof_edge_requests r).
  change (g_edges empty_graph) with (@nil (string * string * option string)).
  set (es1 := foldl (λ es k, update_edge k.1 k.2 (Some "dashed") es) []
                    (statement_edge_requests r)).
  assert (Forall (λ e, e.2 = Some "dashed") es1 ∧
          ∀ a b st, (a, b, st) ∈ es1 ↔
                    (a, b) ∈ statement_edge_requests r ∧ st = Some "dashed")
    as [Hall Hes1].
  { split.
    - by apply (foldl_update_dashed "dashed" _ [] u v None).
    - intros a b st.
      destruct (foldl_update_dashed "dashed" (statement_edge_requests r) [] a b st)
        as [_ Hiff]; [constructor|].
      fold es1 in Hiff. rewrite Hiff, elem_of_nil. naive_solver. }
  assert (∀ a b, (a, b) ∈ edge_keys es1 ↔ (a, b) ∈ statement_edge_requests r)
    as Hkeys.
  { intros a b. unfold edge_keys. rewrite list_elem_of_fmap. split.
    - intros ([[a' b'] st] & [= <- <-] & Hin). by apply Hes1 in Hin as [? _].
    - intros Hin. exists (a, b, Some "dashed"). split; [done|]. by apply Hes1. }
  split_and!.
  - apply foldl_update_NoDup, foldl_update_NoDup. constructor.
  - rewrite foldl_update_none, Hes1. naive_solver.
  - rewrite foldl_update_none, Hes1, Hkeys. naive_solver.
  - intros style. rewrite foldl_update_none, Hes1. naive_solver.
Qed.

(* ===================================================================== *)
(** ** The label shown on a node *)
(* ===================================================================== *)

Lemma split_on_nonempty c s : split_on c s ≠ [].
Proof. destruct s as [|d s]; [done|]. simpl. by repeat case_match. Qed.

Lemma split_on_app_sep c a p :
  split_on c (a +:+ String c p) = split_on c a ++ split_on c p.
Proof.
  induction a as [|d a IH]; rewrite ?app_String, ?app_empty_l; simpl.
  - by rewrite decide_True.
  - destruct (decide (d = c)); [by rewrite IH|]. rewrite IH.
    pose proof (split_on_nonempty c a). by destruct (split_on c a).
Qed.

Lemma split_on_absent c s : contains c s = false → split_on c s = [s].
Proof.
  induction s as [|d s IH]; [done|]. simpl.
  intros [Hd Hs]%orb_false_elim. apply bool_decide_eq_false in Hd.
  by rewrite decide_False, IH.
Qed.

Lemma split_on_parts_free c s : Forall (λ x, contains c x = false) (split_on c s).
Proof.
  induction s as [|d s IH]; simpl; [by repeat constructor|].
  destruct (decide (d = c)); [by constructor|].
  pose proof (split_on_nonempty c s).
  destruct (split_on c s) as [|x xs]; [done|].
  apply Forall_cons in IH as [Hx Hxs]. constructor; [|done].
  simpl. rewrite Hx. by rewrite bool_decide_eq_false_2.
Qed.

Lemma pretty_N_char_not_colon x : pretty_N_char x ≠ ":"%char.
Proof. unfold pretty_N_char. by repeat case_match. Qed.

Lemma pretty_N_go_no_colon x s :
  contains ":" s = false → contains ":" (pretty_N_go x s) = false.
Proof.
  revert s. induction (N.lt_wf_0 x) as [x _ IH]; intros s Hs.
  assert (x = 0 ∨ 0 < x)%N as [->|Hpos] by lia.
  - by rewrite pretty_N_go_0.
  - rewrite pretty_N_go_step by done. apply IH; [by apply N.div_lt|].
    simpl. rewrite Hs, bool_decide_eq_false_2; [done|].
    apply pretty_N_char_not_colon.
Qed.

Lemma pretty_nat_no_colon (n : nat) : contains ":" (pretty n) = false.
Proof.
  unfold pretty, pretty_nat, pretty, pretty_N. case_decide; [done|].
  by apply pretty_N_go_no_colon.
Qed.

(** [X9] The text shown on a node is what follows the last colon of its
    label, so it never contains one; for a statement whose block declares
    no label it is the ordinal of the block, in decimal. *)
Theorem display_label_of_unlabelled nodelist sel i ni :
  recorded sel (blocks_of_all nodelist) 0 !! i = Some (ni, None) →
  r_nodes (parse_latex_structure nodelist sel) !! i = Some ni ∧
  display_label ni = pretty (index ni) ∧
  ∀ nj : NodeInfo, contains ":" (display_label nj) = false.
Proof.
  intros Hi. split_and!.
  - by rewrite parse_nodes, list_lookup_fmap, Hi.
  - apply recorded_lookup in Hi as (_ & _ & Hl). unfold display_label.
    rewrite (Hl eq_refl).
    change (env ni +:+ ":" +:+ pretty (index ni))
      with (env ni +:+ String ":" (pretty (index ni))).
    rewrite split_on_app_sep, last_app.
    by rewrite (split_on_absent _ _ (pretty_nat_no_colon _)).
  - intros nj. unfold display_label.
    pose proof (split_on_parts_free ":" (label nj)) as Hfree.
    destruct (last (split_on ":" (label nj))) as [x|] eqn:E; [|done].
    apply last_Some_elem_of in E. rewrite Forall_forall in Hfree. by apply Hfree.
Qed.

Lemma display_label_of_unlabelled_witness :
  display_label (mkNodeInfo lemma "lemma" "lemma:1" 1) = "1".
Proof.
  destruct (display_label_of_unlabelled (nodes_of doc_unlabelled) CANONICAL_ORDER 1
              (mkNodeInfo lemma "lemma" "lemma:1" 1)) as (_ & Hd & _);
    [by vm_compute|].
  exact Hd.
Defined.

(* ===================================================================== *)
(** ** The counts of the status line *)
(* ===================================================================== *)

Lemma count_canon_cons n ns c :
  count_canon (n :: ns) c = (if decide (canon n = c) then 1 else 0) + count_canon ns c.
Proof. unfold count_canon. rewrite filter_cons. by case_decide. Qed.

Lemma sum_indicator (c : Canon) (cs : list Canon) :
  NoDup cs →
  sum_list ((λ c', if decide (c = c') then 1 else 0) <$> cs)
  = if decide (c ∈ cs) then 1 else 0.
Proof.
  induction 1 as [|c' cs Hnotin Hnd IH]; [done|]. csimpl. rewrite IH.
  destruct (decide (c = c')) as [<-|Hne].
  - rewrite (decide_False (P := c ∈ cs)) by done.
    rewrite decide_True; [done|]. by left.
  - destruct (decide (c ∈ cs)) as [Hin|Hout].
    + rewrite decide_True; [done|]. by right.
    + rewrite decide_False; [done|]. by intros [?|?]%elem_of_cons.
Qed.

Lemma sum_counts ns cs :
  NoDup cs →
  sum_list (count_canon ns <$> cs) = length (filter (λ n, canon n ∈ cs) ns).
Proof.
  intros Hnd. induction ns as [|n ns IH].
  - induction cs as [|c cs IHc]; [done|].
    csimpl. apply NoDup_cons in Hnd as [_ Hnd]. by rewrite IHc.
  - rewrite filter_cons.
    assert (sum_list (count_canon (n :: ns) <$> cs)
            = sum_list ((λ c', if decide (canon n = c') then 1 else 0) <$> cs)
              + sum_list (count_canon ns <$> cs)) as ->.
    { clear. induction cs as [|c cs IHc]; [done|]. csimpl.
      rewrite IHc, count_canon_cons. lia. }
    rewrite sum_indicator, IH by done. by case_decide.
Qed.

(** [X10] The status line accounts for every statement node once: it lists
    the selected categories in canonical order, and the counts it shows
    add up to the number of nodes. *)
Theorem reported_counts_add_up nodelist sel :
  let r := parse_latex_structure nodelist sel in
  (reported_counts (r_nodes r) sel).*1 = filter (λ c, c ∈ sel) CANONICAL_ORDER ∧
  sum_list (reported_counts (r_nodes r) sel).*2 = length (r_nodes r).
Proof.
  intros r. unfold reported_counts. rewrite <- !list_fmap_compose.
  split; [by rewrite list_fmap_id|].
  change (snd ∘ _) with (count_canon (r_nodes r)).
  rewrite sum_counts.
  2:{ apply NoDup_filter. apply (bool_decide_unpack _). by vm_compute. }
  f_equal. apply filter_all, Forall_forall. intros ni Hin.
  apply parse_node_category in Hin as [Hsel _].
  apply list_elem_of_filter. split; [done|].
  unfold CANONICAL_ORDER. destruct (canon ni); set_solver.
Qed.

(* ===================================================================== *)
(** ** Nesting does not matter *)
(* ===================================================================== *)

(** [X11] The walker sees a document as the sequence of its environment
    blocks in pre-order, name and source text: two node lists with the
    same sequence give the same parse, however the blocks are nested and
    whatever else surrounds them. *)
Theorem parse_depends_on_preorder_blocks nodelist1 nodelist2 sel :
  blocks_of_all nodelist1 = blocks_of_all nodelist2 →
  parse_latex_structure nodelist1 sel = parse_latex_structure nodelist2 sel.
Proof.
  intros Hblocks. unfold parse_latex_structure.
  by rewrite !walk_all_run, Hblocks.
Qed.

Lemma parse_depends_on_preorder_blocks_witness :
  parse_latex_structure (nodes_of doc_grouped) CANONICAL_ORDER =
  parse_latex_structure (nodes_of doc_bare) CANONICAL_ORDER.
Proof. apply parse_depends_on_preorder_blocks. by vm_compute. Defined.

(* ===================================================================== *)
(** ** More on the resolver *)
(* ===================================================================== *)

Lemma strip_prefix_app p s : strip_prefix p (p +:+ s) = Some s.
Proof.
  induction p as [|c p IH]; [done|]. rewrite app_String. simpl.
  by rewrite decide_True.
Qed.

(** The [\include] pattern matches at the directive. *)
Lemma include_at_directive name rest :
  is_target name = true →
  INCLUDE_RX (include_directive name +:+ rest) = Some (name, rest).
Proof.
  intros (_ & Hbrace & Hne)%is_target_spec.
  unfold INCLUDE_RX, directive1, include_directive.
  rewrite !app_assoc_s.
  change ("\include{" +:+ name +:+ "}" +:+ rest)
    with ("\include" +:+ String "{" (name +:+ "}" +:+ rest)).
  rewrite strip_prefix_app. cbn [mbind option_bind skip_spaces lstrip].
  change (is_space "{") with false. cbn iota. unfold braced1.
  rewrite until_rbrace_app by done. by destruct name.
Qed.

(** In a text that is plain but for one [\include], the pattern matches
    at the directive and nowhere else. *)
Lemma sole_hit_include_directive a1 name a2 :
  contains "\" a1 = false → contains "\" a2 = false → is_target name = true →
  sole_hit INCLUDE_RX (a1 +:+ include_directive name +:+ a2) a1 name a2.
Proof.
  intros Ha1 Ha2 Hname. unfold sole_hit, scan.
  rewrite scan_go_plain_prefix by (apply needs_backslash_directive1 || done).
  f_equal.
  pose proof (include_at_directive name a2 Hname) as Hm.
  unfold include_directive in *. rewrite !app_assoc_s in *.
  change ("\include{" +:+ name +:+ "}" +:+ a2)
    with (String "\" ("include{" +:+ name +:+ "}" +:+ a2)) in *.
  rewrite (scan_go_hit _ _ _ _ _ Hm). f_equal.
  rewrite <- (app_assoc_s name "}" a2), <- (app_assoc_s "include{" (name +:+ "}") a2).
  rewrite length_app_s.
  replace (String.length ("include{" +:+ name +:+ "}") + String.length a2
           - String.length a2)
    with (String.length ("include{" +:+ name +:+ "}")) by lia.
  rewrite scan_go_skip.
  apply scan_go_no_match, no_match_plain; [apply needs_backslash_directive1|done].
Qed.

Lemma no_match_around_include {G} (m : matcher G) a1 name a2 :
  needs_backslash m →
  (∀ rest, m ("\include{" +:+ rest) = None) →
  contains "\" a1 = false → contains "\" a2 = false → is_target name = true →
  no_match m (a1 +:+ include_directive name +:+ a2).
Proof.
  intros Hm Hdir Ha1 Ha2 ((Hname & _)%is_plain_spec & _ & _)%is_target_spec.
  apply no_match_app; [done..|].
  unfold include_directive. rewrite !app_assoc_s.
  change ("\include{" +:+ name +:+ "}" +:+ a2)
    with (String "\" ("include{" +:+ name +:+ "}" +:+ a2)).
  split.
  - apply (Hdir (name +:+ "}" +:+ a2)).
  - apply no_match_plain; [done|].
    rewrite !contains_app, Hname, Ha2. done.
Qed.

Section ResolverMore.
Variable cwd : string.
Variable fs : gmap string entry.

(** [X12] The resolver comes to an end for every project, cyclic or not.
    With fuel above the number of paths of [fs] it does not run out of
    fuel; it returns a text only when the entry document can be read;
    and an exception that leaves it is the one that reading the entry
    document raises, or one, other than [FileNotFoundError], that reading
    some other path raises.  So it returns a text whenever the entry
    document can be read and no path raises but for want of a file. *)
Theorem expansion_returns fuel main_path :
  size fs < fuel →
  let out := load_and_expand cwd fs fuel main_path in
  out ≠ OutOfFuel ∧
  (∀ text, out = Returned text →
           ∃ raw, read_file fs (abspath cwd main_path) = inr raw) ∧
  (∀ e, out = Raised e →
        read_file fs (abspath cwd main_path) = inl e ∨ raised_by fs e) ∧
  ((∀ p e, fs !! p = Some (Unreadable e) → e = FileNotFoundError) →
   ∀ raw, read_file fs (abspath cwd main_path) = inr raw →
          ∃ text, out = Returned text).
Proof.
  intros Hfuel out.
  assert (match out with
          | Returned _ => ∃ raw, read_file fs (abspath cwd main_path) = inr raw
          | Raised e => read_file fs (abspath cwd main_path) = inl e ∨ raised_by fs e
          | OutOfFuel => False
          end) as Hcases.
  { subst out. unfold load_and_expand.
    destruct (read_file fs (abspath cwd main_path)) as [e|raw]; [by left|].
    pose proof (expand_terminates cwd fs fuel (collect_includeonly raw)
                  (abspath cwd main_path) (dirname (abspath cwd main_path)) ∅) as Hend.
    rewrite difference_empty_L, size_dom in Hend. specialize (Hend Hfuel).
    destruct (expand _ _ _ _ _ _ _) as [[t v]|e|]; simpl in Hend;
      [by eauto | by right | done]. }
  split_and!.
  - intros Hout. by rewrite Hout in Hcases.
  - intros text Hout. by rewrite Hout in Hcases.
  - intros e Hout. by rewrite Hout in Hcases.
  - intros Hfs raw Hraw. destruct out as [text|e|]; [by eauto| |done].
    destruct Hcases as [Hmain|(Hne & p & Hp)]; [congruence|].
    by apply Hfs in Hp.
Qed.

(** [X13] A file without a backslash and without a percent sign has no
    directive and no comment: its expansion is its text, unchanged. *)
Theorem plain_file_expands_to_itself
    fuel includeonly path current_dir visited text :
  abspath cwd path ∉ visited →
  fs !! abspath cwd path = Some (Readable text) →
  is_plain text = true →
  expand cwd fs (S fuel) includeonly path current_dir visited
  = Done (text, {[abspath cwd path]} ∪ visited).
Proof.
  intros Hnew Hfile [Hb Hp]%is_plain_spec.
  cbn [expand]. rewrite decide_False by done. unfold read_file. rewrite Hfile.
  rewrite strip_comments_no_percent by done.
  rewrite (sub_st_no_match IMPORT_RX)
    by (apply no_match_plain; [apply needs_backslash_directive2|done]).
  cbn [mbind result_bind].
  rewrite (sub_st_no_match SUBIMPORT_RX)
    by (apply no_match_plain; [apply needs_backslash_directive2|done]).
  cbn [mbind result_bind].
  rewrite (sub_st_no_match INPUT_BRACED_RX)
    by (apply no_match_plain; [apply needs_backslash_directive1|done]).
  cbn [mbind result_bind].
  rewrite (sub_st_no_match INPUT_SPACEFORM_RX)
    by (apply no_match_plain; [apply needs_backslash_spaceform|done]).
  cbn [mbind result_bind].
  by rewrite (sub_st_no_match INCLUDE_RX)
    by (apply no_match_plain; [apply needs_backslash_directive1|done]).
Qed.
End ResolverMore.

Section ResolverDirectives.
Variable cwd : string.
Variable fs : gmap string entry.

(** [X14] A target that is not there is not fatal.  In a file that is
    plain but for one braced [\input] of a path at which [read_file]
    raises [FileNotFoundError], the directive is replaced by one marker
    line naming the path looked for, the rest of the text is kept, and
    the path counts as visited. *)
Theorem missing_input_leaves_marker
    fuel includeonly path current_dir visited a1 rel a2 :
  let inc_path := ensure_tex_ext (norm_join current_dir (strip rel)) in
  let abs_inc := abspath cwd inc_path in
  abspath cwd path ∉ visited →
  fs !! abspath cwd path = Some (Readable (a1 +:+ input_directive rel +:+ a2)) →
  is_plain a1 = true → is_plain a2 = true → is_target rel = true →
  abs_inc ∉ ({[abspath cwd path]} ∪ visited : gset string) →
  read_file fs abs_inc = inl FileNotFoundError →
  contains "\" abs_inc = false →
  expand cwd fs (S (S fuel)) includeonly path current_dir visited
  = Done (a1 +:+ ("% [depgraph] missing file: " +:+ abs_inc +:+ nl) +:+ a2,
          {[abs_inc]} ∪ ({[abspath cwd path]} ∪ visited)).
Proof.
  intros inc_path abs_inc Hnew Hfile Ha1 Ha2 Hrel Hinc Hgone Hback.
  eapply expand_one_input; try done.
  - fold inc_path. cbn [expand]. fold abs_inc.
    rewrite decide_False by done. by rewrite Hgone.
  - by rewrite !contains_app, Hback.
Qed.

(** An exception that leaves the call for the target of a directive
    leaves the call for the file that holds it. *)
Lemma expand_one_input_raise
    fuel includeonly path current_dir visited a1 rel a2 e :
  let inc_path := ensure_tex_ext (norm_join current_dir (strip rel)) in
  abspath cwd path ∉ visited →
  fs !! abspath cwd path = Some (Readable (a1 +:+ input_directive rel +:+ a2)) →
  is_plain a1 = true → is_plain a2 = true → is_target rel = true →
  expand cwd fs fuel includeonly inc_path (dirname inc_path)
         ({[abspath cwd path]} ∪ visited) = Raise e →
  expand cwd fs (S fuel) includeonly path current_dir visited = Raise e.
Proof.
  intros inc_path Hnew Hfile [Ha1 Pa1]%is_plain_spec [Ha2 Pa2]%is_plain_spec
         Hrel Hcall.
  pose proof Hrel as ([Hrel1 Prel]%is_plain_spec & _ & _)%is_target_spec.
  cbn [expand]. rewrite decide_False by done. unfold read_file. rewrite Hfile.
  rewrite strip_comments_no_percent.
  2:{ unfold input_directive. rewrite !contains_app, Pa1, Prel, Pa2. done. }
  rewrite (sub_st_no_match IMPORT_RX)
    by (apply no_match_around_input;
        [apply needs_backslash_directive2 | by intros rest | done..]).
  cbn [mbind result_bind].
  rewrite (sub_st_no_match SUBIMPORT_RX)
    by (apply no_match_around_input;
        [apply needs_backslash_directive2 | by intros rest | done..]).
  cbn [mbind result_bind].
  rewrite (sub_st_sole_hit INPUT_BRACED_RX _ _ a1 rel a2)
    by (by apply sole_hit_input_directive).
  fold inc_path. by rewrite Hcall.
Qed.

(** [X25] Any other failure to read a target is fatal.  In a file that is
    plain but for one braced [\input] of a path at which [read_file]
    raises an exception other than [FileNotFoundError], no marker is
    left: the exception leaves the call of [expand] for the file. *)
Theorem unreadable_input_is_fatal
    fuel includeonly path current_dir visited a1 rel a2 e :
  let inc_path := ensure_tex_ext (norm_join current_dir (strip rel)) in
  let abs_inc := abspath cwd inc_path in
  abspath cwd path ∉ visited →
  fs !! abspath cwd path = Some (Readable (a1 +:+ input_directive rel +:+ a2)) →
  is_plain a1 = true → is_plain a2 = true → is_target rel = true →
  abs_inc ∉ ({[abspath cwd path]} ∪ visited : gset string) →
  read_file fs abs_inc = inl e →
  e ≠ FileNotFoundError →
  expand cwd fs (S (S fuel)) includeonly path current_dir visited = Raise e.
Proof.
  intros inc_path abs_inc Hnew Hfile Ha1 Ha2 Hrel Hinc Hread He.
  eapply expand_one_input_raise; try done.
  fold inc_path. cbn [expand]. fold abs_inc.
  rewrite decide_False by done. rewrite Hread. by destruct e.
Qed.

(** [X15] What [\include] does, in a file that is plain but for one such
    directive.  When the entry document gave a non-empty [\includeonly]
    list without the base name of the target, the directive becomes a
    marker line and the target is neither read nor marked as visited;
    otherwise it is replaced by the expansion of the target, like an
    [\input]. *)
Theorem include_obeys_includeonly
    fuel includeonly path current_dir visited a1 name a2 :
  let inc_path := ensure_tex_ext (norm_join current_dir (strip name)) in
  let here : gset string := {[abspath cwd path]} ∪ visited in
  abspath cwd path ∉ visited →
  fs !! abspath cwd path = Some (Readable (a1 +:+ include_directive name +:+ a2)) →
  is_plain a1 = true → is_plain a2 = true → is_target name = true →
  expand cwd fs (S fuel) includeonly path current_dir visited
  = if bool_decide (includeonly ≠ ∅) && bool_decide (basename (strip name) ∉ includeonly)
    then Done (a1 +:+ ("% [depgraph] skipped by \includeonly: " +:+ strip name +:+ nl)
                  +:+ a2, here)
    else '(r, v1) ← expand cwd fs fuel includeonly inc_path (dirname inc_path) here;
         Done (a1 +:+ r +:+ a2, v1).
Proof.
  intros inc_path here Hnew Hfile [Ha1 Pa1]%is_plain_spec [Ha2 Pa2]%is_plain_spec Hname.
  pose proof Hname as ([Hname1 Pname]%is_plain_spec & _ & _)%is_target_spec.
  cbn [expand]. rewrite decide_False by done. unfold read_file. rewrite Hfile.
  rewrite strip_comments_no_percent.
  2:{ unfold include_directive. rewrite !contains_app, Pa1, Pname, Pa2. done. }
  rewrite (sub_st_no_match IMPORT_RX)
    by (apply no_match_around_include;
        [apply needs_backslash_directive2 | by intros rest | done..]).
  cbn [mbind result_bind].
  rewrite (sub_st_no_match SUBIMPORT_RX)
    by (apply no_match_around_include;
        [apply needs_backslash_directive2 | by intros rest | done..]).
  cbn [mbind result_bind].
  rewrite (sub_st_no_match INPUT_BRACED_RX)
    by (apply no_match_around_include;
        [apply needs_backslash_directive1 | by intros rest | done..]).
  cbn [mbind result_bind].
  rewrite (sub_st_no_match INPUT_SPACEFORM_RX)
    by (apply no_match_around_include;
        [apply needs_backslash_spaceform | by intros rest | done..]).
  cbn [mbind result_bind].
  rewrite (sub_st_sole_hit INCLUDE_RX _ _ a1 name a2)
    by (by apply sole_hit_include_directive).
  fold inc_path. fold here.
  by destruct (bool_decide (includeonly ≠ ∅)
               && bool_decide (basename (strip name) ∉ includeonly)).
Qed.
End ResolverDirectives.

Lemma expansion_returns_witness :
  ∃ text, load_and_expand "/p" fs_cycle 3 "A.tex" = Returned text.
Proof.
  destruct (expansion_returns "/p" fs_cycle 3 "A.tex") as (_ & _ & _ & Hret);
    [by vm_compute|].
  apply (Hret) with (raw := "\input{B}[A]"); [|by vm_compute].
  intros p e Hp. unfold fs_cycle in Hp.
  apply lookup_insert_Some in Hp as [[_ ?]|[_ Hp]]; [done|].
  by apply lookup_singleton_Some in Hp as [_ ?].
Defined.

Lemma plain_file_expands_to_itself_witness :
  expand "/p" fs_diamond 1 ∅ "/p/Z.tex" "/p" ∅ = Done ("z", {["/p/Z.tex"]} ∪ ∅).
Proof.
  apply (plain_file_expands_to_itself "/p" fs_diamond 0 ∅ "/p/Z.tex" "/p" ∅ "z");
    [by vm_compute..].
Defined.

Lemma missing_input_leaves_marker_witness :
  expand "/p" fs_missing 2 ∅ "/p/main.tex" "/p" ∅
  = Done ("before " +:+ ("% [depgraph] missing file: " +:+ "/p/gone.tex" +:+ nl)
            +:+ " after",
          {["/p/gone.tex"]} ∪ ({["/p/main.tex"]} ∪ ∅)).
Proof.
  apply (missing_input_leaves_marker "/p" fs_missing 0 ∅ "/p/main.tex" "/p" ∅
           "before " "gone" " after"); by vm_compute.
Defined.

(** In [fs_unreadable] the target lies below the entry document itself. *)
Lemma unreadable_input_is_fatal_witness :
  expand "/p" fs_unreadable 2 ∅ "/p/main.tex" "/p" ∅ = Raise NotADirectoryError ∧
  load_and_expand "/p" fs_unreadable 2 "main.tex" = Raised NotADirectoryError.
Proof.
  split; [|by vm_compute].
  apply (unreadable_input_is_fatal "/p" fs_unreadable 0 ∅ "/p/main.tex" "/p" ∅
           "before " "main.tex/x" " after" NotADirectoryError); by vm_compute.
Defined.

(** With an allow-list that names part A only, part B is skipped; so it
    is in [fs_includeonly], where the entry document declares the list. *)
Lemma include_obeys_includeonly_witness :
  expand "/p" fs_skip 1 {["partA"]} "/p/main.tex" "/p" ∅
  = Done ("x" +:+ ("% [depgraph] skipped by \includeonly: " +:+ "partB" +:+ nl) +:+ "y",
          {["/p/main.tex"]} ∪ ∅) ∧
  load_and_expand "/p" fs_includeonly 2 "main.tex"
  = Returned ("\includeonly{partA}[A]"
              +:+ "% [depgraph] skipped by \includeonly: partB" +:+ nl).
Proof.
  split; [|by vm_compute].
  rewrite (include_obeys_includeonly "/p" fs_skip 0 {["partA"]} "/p/main.tex" "/p" ∅
             "x" "partB" "y"); by vm_compute.
Defined.

(** [X26] The key under which a file counts as visited is an absolute path
    in normal form, whatever the spelling of the path in the directive:
    it starts with a slash, [normpath] leaves it as it is, and taking its
    absolute path again, as [expand] does with the path that
    [load_and_expand] hands it, changes nothing. *)
Theorem visited_key_is_normal cwd path :
  startswith "/" cwd = true →
  let key := abspath cwd path in
  startswith "/" key = true ∧ normpath key = key ∧ abspath cwd key = key.
Proof.
  intros Hcwd key.
  destruct (normpath_of_normal_abs _ (abspath_normal_abs cwd path Hcwd)) as [Habs Hnorm].
  split_and!; [done | done | by apply abspath_idemp].
Qed.

(** Two spellings of one file. *)
Lemma visited_key_is_normal_witness :
  abspath "/p" "sub/../X.tex" = "/p/X.tex" ∧
  abspath "/p" "./X.tex" = "/p/X.tex" ∧
  abspath "/p" (abspath "/p" "sub/../X.tex") = abspath "/p" "sub/../X.tex".
Proof.
  destruct (visited_key_is_normal "/p" "sub/../X.tex") as (_ & _ & Hkey);
    [by vm_compute|].
  split_and!; [by vm_compute | by vm_compute | exact Hkey].
Defined.

(* ===================================================================== *)
(** ** The section slicer *)
(* ===================================================================== *)

Lemma finditer_at_props {G} (m : matcher G) pos skip s :
  Forall (λ e, pos + skip ≤ e.1 ∧ e.1 < pos + String.length s ∧
               ∃ rest, m (drop_chars (e.1 - pos) s) = Some (e.2, rest))
         (finditer_at m pos skip s) ∧
  StronglySorted lt (finditer_at m pos skip s).*1.
Proof.
  revert pos skip. induction s as [|c s IH]; intros pos skip.
  { split; constructor. }
  assert (∀ k, Forall (λ e, pos + S k ≤ e.1 ∧ e.1 < pos + String.length (String c s) ∧
                        ∃ rest, m (drop_chars (e.1 - pos) (String c s)) = Some (e.2, rest))
                      (finditer_at m (S pos) k s)) as Htail.
  { intros k. destruct (IH (S pos) k) as [Hall _].
    eapply Forall_impl; [exact Hall|]. simpl.
    intros [p g] (Hle & Hlt & rest & Hm). simpl in *.
    split_and!; [lia..|]. exists rest.
    replace (p - pos) with (S (p - S pos)) by lia. done. }
  assert (∀ k, Forall (λ e, pos + 0 ≤ e.1 ∧ e.1 < pos + String.length (String c s) ∧
                        ∃ rest, m (drop_chars (e.1 - pos) (String c s)) = Some (e.2, rest))
                      (finditer_at m (S pos) k s)) as Htail0.
  { intros k. eapply Forall_impl; [apply (Htail k)|]. simpl.
    intros e (? & ? & ?). split_and!; [lia|done..]. }
  cbn [finditer_at]. destruct skip as [|k].
  - destruct (m (String c s)) as [[g rest]|] eqn:Hm.
    + split.
      * constructor; [|apply Htail0]. simpl. split_and!; [lia..|].
        exists rest. by rewrite Nat.sub_diag.
      * rewrite fmap_cons. constructor; [apply IH|]. simpl.
        apply Forall_fmap. eapply Forall_impl; [apply Htail|]. simpl. lia.
    + split; [apply Htail0 | apply IH].
  - split; [apply Htail | apply IH].
Qed.

Lemma chapters_from_starts matches len :
  ch_start <$> chapters_from matches len = matches.*1.
Proof.
  induction matches as [|[p g] matches IH]; [done|]. csimpl. by rewrite IH.
Qed.

Lemma chapters_from_tile matches len :
  StronglySorted lt matches.*1 →
  Forall (λ p, p < len) matches.*1 →
  let chs := chapters_from matches len in
  Forall (λ c, ch_start c < ch_end c ∧ ch_end c ≤ len) chs ∧
  (∀ i c c', chs !! i = Some c → chs !! S i = Some c' → ch_end c = ch_start c') ∧
  (∀ c, last chs = Some c → ch_end c = len).
Proof.
  induction matches as [|[p g] matches IH]; intros Hs Hlt.
  { split_and!; [constructor|done|done]. }
  rewrite fmap_cons in Hs, Hlt. cbn [fst] in Hs, Hlt.
  apply StronglySorted_inv in Hs as [Hs Hp]. apply Forall_cons in Hlt as [Hplt Hlt].
  destruct (IH Hs Hlt) as (Hall & Hcons & Hlast). clear IH.
  destruct matches as [|[q h] matches].
  - cbn. split_and!.
    + repeat constructor; cbn; lia.
    + intros [|i] c c' Hc Hc'; cbn in *; simplify_eq.
    + by intros c [= <-].
  - rewrite fmap_cons in Hp, Hlt. cbn [fst] in Hp, Hlt.
    apply Forall_cons in Hp as [Hpq _]. apply Forall_cons in Hlt as [Hqlt _].
    cbn [chapters_from] in *.
    split_and!.
    + constructor; [cbn; lia|done].
    + intros [|i] c c' Hc Hc'.
      * cbn in Hc, Hc'. by simplify_eq.
      * by eapply Hcons.
    + intros c Hc. by apply Hlast.
Qed.

Lemma find_chapter_ranges_matches tex :
  StronglySorted lt (finditer_at CHAPTER_RX 0 0 tex).*1 ∧
  Forall (λ p, p < String.length tex) (finditer_at CHAPTER_RX 0 0 tex).*1.
Proof.
  destruct (finditer_at_props CHAPTER_RX 0 0 tex) as [Hall Hs].
  split; [done|]. apply Forall_fmap. eapply Forall_impl; [exact Hall|].
  simpl. intros e (_ & ? & _). lia.
Qed.


(** [X17] Every chapter starts at a match of the chapter pattern, and its
    title is the braced title of that match without the white space
    around it. *)
Theorem chapter_starts_at_marker tex c :
  c ∈ find_chapter_ranges tex →
  ∃ g rest, CHAPTER_RX (drop_chars (ch_start c) tex) = Some (g, rest) ∧
            ch_title c = strip g.
Proof.
  unfold find_chapter_ranges.
  destruct (finditer_at_props CHAPTER_RX 0 0 tex) as [Hall _].
  revert Hall. generalize (finditer_at CHAPTER_RX 0 0 tex) (String.length tex).
  intros matches len. induction 1 as [|[p g] matches (_ & _ & rest & Hm) _ IH]; simpl.
  - by intros ?%elem_of_nil.
  - intros [->|Hin]%elem_of_cons; [|by apply IH].
    simpl in *. rewrite Nat.sub_0_r in Hm. eauto.
Qed.

Lemma chapter_starts_at_marker_witness :
  ∃ g rest,
    CHAPTER_RX (drop_chars 3 "ab \chapter*[s]{ One }text") = Some (g, rest) ∧
    "One" = strip g.
Proof.
  apply (chapter_starts_at_marker "ab \chapter*[s]{ One }text" (mkChapter "One" 3 26)).
  vm_compute. apply list_elem_of_here.
Defined.






(* ===================================================================== *)
(** ** The default extension *)
(* ===================================================================== *)

Lemma basename_no_sep t : contains "/" t = false → basename t = t.
Proof.
  induction t as [|c t IH]; [done|]. simpl.
  intros [Hc Ht]%orb_false_elim. apply bool_decide_eq_false in Hc.
  by rewrite Ht, decide_False.
Qed.

Lemma basename_app p t :
  contains "/" t = false → basename (p +:+ t) = basename p +:+ t.
Proof.
  intros Ht. induction p as [|c p IH]; [by apply basename_no_sep|].
  rewrite app_String. simpl. rewrite contains_app, Ht, orb_false_r.
  destruct (contains "/" p); [done|]. by destruct (decide (c = "/"%char)).
Qed.

Lemma drop_dots_nondot c s : c ≠ "."%char → drop_dots (String c s) = String c s.
Proof. intros Hc. destruct c as [[] [] [] [] [] [] [] []]; done. Qed.

Lemma drop_dots_app b t :
  has_nondot b = true → drop_dots (b +:+ t) = drop_dots b +:+ t.
Proof.
  induction b as [|c b IH]; [done|]. rewrite app_String.
  destruct (decide (c = "."%char)) as [->|Hc].
  - simpl. exact IH.
  - intros _. by rewrite !drop_dots_nondot.
Qed.

Lemma drop_dots_all_dots b t :
  has_nondot b = false → drop_dots (b +:+ t) = drop_dots t ∧ drop_dots b = "".
Proof.
  induction b as [|c b IH]; [done|]. rewrite app_String. simpl.
  intros [Hc Hb]%orb_false_elim. apply negb_false_iff, bool_decide_eq_true in Hc.
  subst c. by apply IH.
Qed.

Lemma from_last_dot_tex y : from_last_dot (y +:+ ".tex") = ".tex".
Proof.
  induction y as [|c y IH]; [done|]. rewrite app_String. simpl. by rewrite IH.
Qed.

(** [X19] [ensure_tex_ext] leaves a path with an extension alone and
    appends [.tex] to any other.  The result has an extension, and a
    second application changes nothing, exactly when the base name has a
    character other than a dot; the extension of a base name made of dots
    only is empty (as [os.path.splitext] has it), so a second application
    appends [.tex] once more. *)
Theorem ensure_tex_ext_twice p :
  (splitext_ext p ≠ "" → ensure_tex_ext p = p) ∧
  (splitext_ext p = "" → ensure_tex_ext p = p +:+ ".tex") ∧
  ensure_tex_ext (ensure_tex_ext p) =
    (if has_nondot (basename p) then ensure_tex_ext p else p +:+ ".tex" +:+ ".tex").
Proof.
  unfold ensure_tex_ext.
  destruct (has_nondot (basename p)) eqn:Hb.
  - assert (splitext_ext (p +:+ ".tex") = ".tex") as Hext.
    { unfold splitext_ext. rewrite basename_app, drop_dots_app by done.
      apply from_last_dot_tex. }
    repeat case_bool_decide; split_and!; try done; congruence.
  - destruct (drop_dots_all_dots (basename p) ".tex" Hb) as [Hd1 Hd2].
    assert (splitext_ext p = "") as Hext0.
    { unfold splitext_ext. by rewrite Hd2. }
    assert (splitext_ext (p +:+ ".tex") = "") as Hext1.
    { unfold splitext_ext. rewrite basename_app, Hd1 by done. done. }
    rewrite Hext0. rewrite !bool_decide_eq_true_2 by done.
    by rewrite app_assoc_s.
Qed.

(* ===================================================================== *)
(** ** Comments *)
(* ===================================================================== *)

Lemma comment_rx_none c s :
  COMMENT_RX (String c s) = None ↔
  c = "\"%char ∨ match s with String "%" _ => False | _ => True end.
Proof.
  unfold COMMENT_RX. destruct s as [|d s]; [naive_solver|].
  destruct (decide (d = "%"%char)) as [->|Hd].
  - destruct (decide (c = "\"%char)); naive_solver.
  - assert (match String d s with String "%" _ => False | _ => True end) as Hok.
    { destruct d as [[] [] [] [] [] [] [] []]; done. }
    split; [by right|]. intros _.
    destruct d as [[] [] [] [] [] [] [] []]; done.
Qed.

Lemma no_match_escaped pb s :
  percent_escaped pb s = true → no_match COMMENT_RX s.
Proof.
  revert pb. induction s as [|c s IH]; intros pb; [done|]. simpl.
  intros [Hc Hs]%andb_true_iff. split; [|by eapply IH].
  apply comment_rx_none. destruct s as [|d s]; [by right|].
  destruct (decide (d = "%"%char)) as [->|Hd].
  - left. simpl in Hs. apply andb_true_iff in Hs as [Hs _].
    by apply bool_decide_eq_true in Hs.
  - right. destruct d as [[] [] [] [] [] [] [] []]; done.
Qed.

Lemma strip_comments_escaped text :
  percent_escaped false text = true → strip_comments text = text.
Proof.
  intros Hesc. pose proof (no_match_escaped _ _ Hesc) as Hnm.
  assert (re_sub COMMENT_RX id text = text) as Hsub.
  { unfold re_sub, scan. by rewrite scan_go_no_match, sub_pieces_lits. }
  unfold strip_comments. destruct text as [|c text]; [done|].
  simpl in Hesc. apply andb_true_iff in Hesc as [Hc _].
  destruct (decide (c = "%"%char)) as [->|Hne]; [done|].
  destruct c as [[] [] [] [] [] [] [] []]; done.
Qed.

(** [X20] A text in which every percent sign comes right after a backslash
    has no comment: [strip_comments] returns it unchanged.  (The backslash
    may itself be escaped: the pattern does not look further back.) *)
Theorem escaped_percent_is_kept text :
  percent_escaped false text = true → strip_comments text = text.
Proof. apply strip_comments_escaped. Qed.

Lemma escaped_percent_is_kept_witness :
  strip_comments "50\% of \\% all" = "50\% of \\% all".
Proof. apply escaped_percent_is_kept. by vm_compute. Defined.

Lemma drop_line_split r :
  ∃ x, r = x +:+ drop_line r ∧ startswith "%" (drop_line r) = false.
Proof.
  induction r as [|c r (x & Hx & Hstart)]; [by exists ""|]. simpl.
  destruct (decide (c = ascii_of_nat 10)) as [->|Hc].
  - by exists "".
  - exists (String c x). rewrite app_String. by rewrite <- Hx.
Qed.

Lemma comment_rx_some s g rest :
  COMMENT_RX s = Some (g, rest) →
  ∃ c r, s = String c (String "%" r) ∧ c ≠ "\"%char ∧
         g = String c "" ∧ rest = drop_line r.
Proof.
  unfold COMMENT_RX. destruct s as [|c [|d r]]; try done.
  destruct (decide (d = "%"%char)) as [->|Hd].
  - destruct (decide (c = "\"%char)); [done|]. intros [= <- <-]. by exists c, r.
  - destruct d as [[] [] [] [] [] [] [] []]; done.
Qed.

Lemma re_sub_comment_step c s :
  re_sub COMMENT_RX id (String c s) =
  match COMMENT_RX (String c s) with
  | Some (g, rest) => g +:+ re_sub COMMENT_RX id rest
  | None => String c (re_sub COMMENT_RX id s)
  end.
Proof.
  unfold re_sub, scan. destruct (COMMENT_RX (String c s)) as [[g rest]|] eqn:Hm.
  - rewrite (scan_go_hit _ _ _ _ _ Hm).
    apply comment_rx_some in Hm as (c' & r & [= <- ->] & Hc & -> & ->).
    destruct (drop_line_split r) as (x & Hx & _).
    cbn [sub_pieces id]. f_equal.
    remember (drop_line r) as rest eqn:Hrest. clear Hrest. subst r.
    change (String "%" (x +:+ rest)) with (String "%" x +:+ rest).
    rewrite length_app_s.
    replace (String.length (String "%" x) + String.length rest - String.length rest)
      with (String.length (String "%" x)) by lia.
    by rewrite scan_go_skip.
  - cbn [scan_go]. by rewrite Hm.
Qed.

Lemma re_sub_comment_escaped n s pb :
  String.length s ≤ n →
  (startswith "%" s = true → pb = true) →
  percent_escaped pb (re_sub COMMENT_RX id s) = true.
Proof.
  revert s pb. induction n as [|n IH]; intros s pb Hlen Hstart.
  { destruct s; [done|simpl in Hlen; lia]. }
  destruct s as [|c s]; [done|]. rewrite re_sub_comment_step.
  assert ((if decide (c = "%"%char) then pb else true) = true) as Hc.
  { destruct (decide (c = "%"%char)) as [->|]; [by apply Hstart|done]. }
  destruct (COMMENT_RX (String c s)) as [[g rest]|] eqn:Hm.
  - apply comment_rx_some in Hm as (c' & r & [= <- ->] & Hne & -> & ->).
    rewrite app_String, app_empty_l. cbn [percent_escaped]. rewrite Hc.
    rewrite bool_decide_eq_false_2 by done. cbn [andb].
    destruct (drop_line_split r) as (x & Hx & Hnl).
    apply IH; [|by rewrite Hnl].
    apply (f_equal String.length) in Hx. rewrite length_app_s in Hx.
    simpl in Hlen. lia.
  - cbn [percent_escaped]. rewrite Hc. cbn [andb].
    apply IH; [simpl in Hlen; lia|].
    intros Hs. apply bool_decide_eq_true.
    apply comment_rx_none in Hm as [->|Hm]; [done|].
    destruct s as [|d s]; [done|]. unfold startswith in Hs. simpl in Hs.
    destruct (decide ("%"%char = d)) as [<-|]; done.
Qed.

(** [X21] After [strip_comments] no comment is left: every percent sign of
    the result comes right after a backslash, so stripping a second time
    changes nothing. *)
Theorem strip_comments_leaves_no_comment text :
  percent_escaped false (strip_comments text) = true ∧
  strip_comments (strip_comments text) = strip_comments text.
Proof.
  assert (percent_escaped false (strip_comments text) = true) as Hesc.
  { unfold strip_comments. destruct text as [|c text]; [done|].
    destruct (decide (c = "%"%char)) as [->|Hc].
    - destruct (drop_line_split text) as (x & _ & Hnl).
      eapply re_sub_comment_escaped; [done|]. by rewrite Hnl.
    - assert (startswith "%" (String c text) = false) as Hs.
      { unfold startswith. simpl. by rewrite decide_False. }
      assert (match String c text with
              | String "%" r => re_sub COMMENT_RX id (drop_line r)
              | _ => re_sub COMMENT_RX id (String c text)
              end = re_sub COMMENT_RX id (String c text)) as ->.
      { destruct c as [[] [] [] [] [] [] [] []]; done. }
      eapply re_sub_comment_escaped; [done|]. by rewrite Hs. }
  split; [done|]. by apply strip_comments_escaped.
Qed.

(* ===================================================================== *)
(** ** Labels and lists of labels in the text of a block *)
(* ===================================================================== *)

Lemma hits_lits_app {G} s (ps : list (piece G)) : hits (lits s ++ ps) = hits ps.
Proof. induction s as [|c s IH]; [done|]. simpl. exact IH. Qed.

(** A match of [\label] that starts before a backslash lies before it. *)
Lemma label_prefix_within x y r :
  x ≠ "" → strip_prefix "\label" (x +:+ String "\" y) = Some r →
  startswith "\label" x = true.
Proof.
  intros Hx. unfold startswith.
  destruct x as [|c1 [|c2 [|c3 [|c4 [|c5 [|c6 x]]]]]]; try done;
    rewrite ?app_String, ?app_empty_l; simpl;
    repeat (case_decide; [subst|done]); try done.
Qed.

Lemma scan_label_prefix a y :
  occurs "\label" a = false →
  scan_go LABEL_RX 0 (a +:+ String "\" y) = lits a ++ scan_go LABEL_RX 0 (String "\" y).
Proof.
  induction a as [|c a IH]; [done|]. cbn [occurs].
  intros [Hhere Ha]%orb_false_elim. rewrite app_String. cbn [scan_go].
  assert (LABEL_RX (String c (a +:+ String "\" y)) = None) as ->.
  { unfold LABEL_RX.
    destruct (strip_prefix "\label" (String c (a +:+ String "\" y))) as [r|] eqn:E;
      [|done].
    change (String c (a +:+ String "\" y)) with (String c a +:+ String "\" y) in E.
    apply label_prefix_within in E; [congruence|done]. }
  cbn [lits app]. by rewrite IH.
Qed.

(** [X22] The label of a statement block is the first [\label{...}] of its
    source text, whatever follows it there, the text of nested blocks and
    their labels included. *)
Theorem first_label_wins envname a l rest i :
  occurs "\label" a = false → l ≠ "" → contains "}" l = false →
  search LABEL_RX (labelled_text a l rest) = Some l ∧
  label_for envname (labelled_text a l rest) i = l.
Proof.
  intros Ha Hl Hbrace.
  assert (search LABEL_RX (labelled_text a l rest) = Some l) as Hsearch.
  { unfold search, finditer, scan, labelled_text.
    change ("\label{" +:+ l +:+ "}" +:+ rest)
      with (String "\" ("label{" +:+ l +:+ "}" +:+ rest)).
    rewrite scan_label_prefix by done. rewrite hits_lits_app.
    assert (LABEL_RX (String "\" ("label{" +:+ l +:+ "}" +:+ rest)) = Some (l, rest))
      as Hm.
    { unfold LABEL_RX.
      change (String "\" ("label{" +:+ l +:+ "}" +:+ rest))
        with ("\label" +:+ String "{" (l +:+ "}" +:+ rest)).
      rewrite strip_prefix_app. cbn [mbind option_bind]. unfold braced1.
      rewrite until_rbrace_app by done. by destruct l. }
    by rewrite (scan_go_hit _ _ _ _ _ Hm). }
  split; [done|]. unfold label_for. rewrite Hsearch. by destruct l.
Qed.

(** An example block without a label of its own takes the label of the
    theorem nested in it. *)
Lemma first_label_wins_witness :
  label_for "example"
    (labelled_text "\begin{example}\begin{theorem}" "T" "\end{theorem}\end{example}") 0
  = "T".
Proof.
  apply (first_label_wins "example" "\begin{example}\begin{theorem}" "T"
           "\end{theorem}\end{example}" 0); by vm_compute.
Defined.

(** [X23] A comma separates labels and nothing else does: the labels of a
    list are those before a comma followed by those after it, and a text
    without a comma is one label, trimmed, or none when it is blank. *)
Theorem csv_labels_at_comma x y :
  csv_labels (x +:+ "," +:+ y) = csv_labels x ++ csv_labels y ∧
  (contains "," x = false →
   csv_labels x = if decide (strip x = "") then [] else [strip x]).
Proof.
  unfold csv_labels. split.
  - change (x +:+ "," +:+ y) with (x +:+ String "," y).
    by rewrite split_on_app_sep, fmap_app, filter_app.
  - intros Hx. rewrite (split_on_absent _ _ Hx). cbn [fmap list_fmap].
    rewrite filter_cons, filter_nil. by repeat case_decide.
Qed.

Lemma csv_labels_at_comma_witness :
  csv_labels " a b " = if decide (strip " a b " = "") then [] else [strip " a b "].
Proof.
  destruct (csv_labels_at_comma " a b " "") as [_ H]. apply H. by vm_compute.
Defined.

Lemma chapters_from_ordered matches len :
  StronglySorted lt matches.*1 →
  Forall (λ p, p < len) matches.*1 →
  StronglySorted (λ c c', ch_end c ≤ ch_start c') (chapters_from matches len).
Proof.
  induction matches as [|[p g] matches IH]; intros Hs Hlt; [constructor|].
  rewrite fmap_cons in Hs, Hlt. cbn [fst] in Hs, Hlt.
  apply StronglySorted_inv in Hs as [Hs Hp]. apply Forall_cons in Hlt as [Hplt Hlt].
  cbn [chapters_from]. constructor; [by apply IH|].
  apply Forall_forall. intros c Hc. cbn [ch_end].
  assert (ch_start c ∈ matches.*1) as Hin.
  { rewrite <- (chapters_from_starts matches len). by apply list_elem_of_fmap_2. }
  destruct matches as [|[q h] matches]; [by apply elem_of_nil in Hin|].
  rewrite fmap_cons in Hs, Hin. cbn [fst] in Hs, Hin.
  apply StronglySorted_inv in Hs as [_ Hq]. rewrite Forall_forall in Hq.
  apply elem_of_cons in Hin as [->|Hin]; [done|]. apply Hq in Hin. lia.
Qed.

Lemma omap_zip_ordered (ticks : list bool) (chs : list Chapter) :
  StronglySorted (λ c c', ch_end c ≤ ch_start c') chs →
  StronglySorted (λ r r' : nat * nat, r.2 ≤ r'.1)
    (omap (λ vc : bool * Chapter,
             if vc.1 then Some (ch_start vc.2, ch_end vc.2) else None)
          (zip ticks chs)) ∧
  ∀ r, r ∈ omap (λ vc : bool * Chapter,
                   if vc.1 then Some (ch_start vc.2, ch_end vc.2) else None)
                (zip ticks chs) →
       ∃ c, c ∈ chs ∧ r = (ch_start c, ch_end c).
Proof.
  intros Hs. revert ticks. induction Hs as [|c chs Hs IH Hc]; intros ticks.
  { destruct ticks; split; try constructor; by intros r ?%elem_of_nil. }
  destruct ticks as [|[] ticks].
  - split; [constructor|]. by intros r ?%elem_of_nil.
  - destruct (IH ticks) as [IH1 IH2]. cbn. split.
    + constructor; [done|]. apply Forall_forall. intros r Hr.
      apply IH2 in Hr as (c' & Hc' & ->). cbn.
      rewrite Forall_forall in Hc. by apply Hc.
    + intros r [->|Hr]%elem_of_cons; [exists c; split; [by left|done]|].
      apply IH2 in Hr as (c' & Hc' & ->). exists c'. split; [by right|done].
  - destruct (IH ticks) as [IH1 IH2]. cbn. split; [done|].
    intros r Hr. apply IH2 in Hr as (c' & Hc' & ->). exists c'. split; [by right|done].
Qed.

(** [X24] The ranges the chapter dialog returns are ranges of chapters of
    the text, in document order and without overlap: each lies within the
    text, is not empty, and ends before the next one starts. *)
Theorem chosen_ranges_in_order tex ticks rs :
  choose_chapters_from_tex tex ticks = Some rs →
  StronglySorted (λ r r' : nat * nat, r.2 ≤ r'.1) rs ∧
  Forall (λ r : nat * nat, r.1 < r.2 ∧ r.2 ≤ String.length tex) rs ∧
  Forall (λ r, ∃ c, c ∈ find_chapter_ranges tex ∧ r = (ch_start c, ch_end c)) rs.
Proof.
  unfold choose_chapters_from_tex.
  destruct (find_chapter_ranges_matches tex) as [Hs Hlt].
  pose proof (chapters_from_ordered _ _ Hs Hlt) as Hord.
  pose proof (chapters_from_tile _ _ Hs Hlt) as (Hall & _ & _).
  fold (find_chapter_ranges tex) in Hord, Hall.
  destruct (find_chapter_ranges tex) as [|c chs] eqn:E; [done|].
  intros [= <-]. destruct (omap_zip_ordered ticks (c :: chs) Hord) as [H1 H2].
  split_and!; [done| |by apply Forall_forall].
  apply Forall_forall. intros r Hr. apply H2 in Hr as (c' & Hc' & ->). cbn.
  rewrite Forall_forall in Hall. by apply Hall.
Qed.

Lemma chosen_ranges_in_order_witness :
  StronglySorted (λ r r' : nat * nat, r.2 ≤ r'.1) [(3, 19); (32, 42)].
Proof.
  destruct (chosen_ranges_in_order "pre\chapter{One}abc\chapter{Two}\chapter{}"
              [true; false; true] [(3, 19); (32, 42)]) as [H _]; [by vm_compute|].
  exact H.
Defined.
